(** * testfuse: deterministic pseudo-random files served through FUSE

    A shallow embedding of [testfuse.c]: the CRC seed mixing ([crc]), the
    xorshift block generator ([get_block]), the read operation
    ([fop_read]) and the file registration done by [main], followed by the
    properties of the content engine and of the read fulfiller.

    Conventions.
    - A [uint32_t], [uint64_t], [size_t], [int] or [off_t] value is a [Z];
      every place where C wraps or converts is written out with [to_u32],
      [to_u64], [to_int] or [to_off_t].
    - A [char] buffer is a [list byte].  [buf32[i] = w] stores the four
      bytes of [w] in little-endian order, the layout of the x86-64
      machines the program's header speaks of (the SHA-1 sums quoted there
      are those of this layout).
    - A write past the end of a buffer is undefined behaviour in C; the
      model stops with [Fault]. *)

From Stdlib Require Import ZArith String Ascii List Bool Lia.
From coqutil Require Import Byte Z.bitblast Word.LittleEndianList.
Import ListNotations.
Local Open Scope Z_scope.

(** ** Fixed-width integers *)

Definition to_u32 (x : Z) : Z := x mod 2 ^ 32.
Definition to_u64 (x : Z) : Z := x mod 2 ^ 64.
Definition to_int (x : Z) : Z := (x + 2 ^ 31) mod 2 ^ 32 - 2 ^ 31.
Definition to_off_t (x : Z) : Z := (x + 2 ^ 63) mod 2 ^ 64 - 2 ^ 63.

Definition sizeof_uint32 : Z := 4.

(** ** Block geometry (the build without SMALL_BLOCK_TEST) *)

Definition BLOCK_SIZE : Z := 64 * 1024.
Definition BLOCK_SHIFT : Z := 16.
Definition OFFSET_MASK : Z := BLOCK_SIZE - 1.

(** ** Outcomes of code that writes through pointers *)

Inductive result (A : Type) : Type :=
| Ok (a : A)
| Fault       (* a store outside the buffer it was given *)
| Timeout.    (* the model's iteration budget ran out *)
Arguments Ok {A} a.
Arguments Fault {A}.
Arguments Timeout {A}.

Definition bind {A B} (r : result A) (k : A -> result B) : result B :=
  match r with
  | Ok a => k a
  | Fault => Fault
  | Timeout => Timeout
  end.

Notation "x <- r ;; k" := (bind r (fun x => k))
  (at level 61, r at next level, right associativity).

(** ** The content engine *)

(** The constants of [crc] and the two locals it sets once, before the
    loop. *)
Definition polynomial : Z := 0x04C11DB7.
Definition msb_mask : Z := 0x80000000.
Definition divisor : Z := Z.lor msb_mask (Z.shiftr polynomial 1).
Definition divisor_next : Z := to_u32 (Z.shiftl (Z.land polynomial 0x01) 31).

(** One pass through the body of the [for] loop of [crc], at loop index
    [i], on the pair [(input, input_next)]. *)
Definition crc_body (block : Z) (i : Z) (st : Z * Z) : Z * Z :=
  let '(input, input_next) := st in
  (* refill next *)
  let input_next := if i =? 1 * sizeof_uint32 * 8 then block else input_next in
  (* xor *)
  let '(input, input_next) :=
    if negb (Z.land input msb_mask =? 0)
    then (Z.lxor input divisor, Z.lxor input_next divisor_next)
    else (input, input_next) in
  (* shift *)
  let input := to_u32 (Z.shiftl input 1) in
  let input := if negb (Z.land input_next msb_mask =? 0)
               then Z.lor input 0x01 else input in
  let input_next := to_u32 (Z.shiftl input_next 1) in
  (input, input_next).

(** [n] more passes, the next one at index [i]. *)
Fixpoint crc_loop (n : nat) (block : Z) (i : Z) (st : Z * Z) : Z * Z :=
  match n with
  | O => st
  | S n' => crc_loop n' block (i + 1) (crc_body block i st)
  end.

Definition crc (global_seed file_seed block : Z) : Z :=
  let input := global_seed in
  let input_next := file_seed in
  fst (crc_loop (Z.to_nat (3 * sizeof_uint32 * 8)) block 0 (input, input_next)).

(** Pointers into buffers.  A [char*] is modelled by the memory from the
    address it holds to the end of the object it points into, so [p + n]
    is [skipn n p] and a store through [p] replaces a prefix of the list.
    A function that writes through a pointer returns that memory as it is
    after the call. *)

(** [*(uint32_t* )p = w]. *)
Definition store32 (p : list byte) (w : Z) : result (list byte) :=
  match p with
  | _ :: _ :: _ :: _ :: rest => Ok (le_split 4 w ++ rest)
  | _ => Fault
  end.

(** The [for] loop of [get_block] with [n] passes to go: pass [i] stores
    [buf32[i]], and the passes run through [i = 0, 1, 2, ...], so [buf]
    is here the memory from [&buf32[i]] on. *)
Fixpoint get_block_loop (n : nat) (x y z w : Z) (buf : list byte)
  : result (list byte) :=
  match n with
  | O => Ok buf
  | S n' =>
      let t := Z.lxor x (to_u32 (Z.shiftl x 11)) in
      let x := y in
      let y := z in
      let z := w in
      let w := Z.lxor (Z.lxor w (Z.shiftr w 19)) (Z.lxor t (Z.shiftr t 8)) in
      buf <- store32 buf w ;;
      rest <- get_block_loop n' x y z w (skipn 4 buf) ;;
      Ok (firstn 4 buf ++ rest)
  end.

(** [get_block(block, buf, file_seed)].  [block] is an [int], converted
    back to [uint32_t] when it is passed on to [crc]. *)
Definition get_block (block : Z) (buf : list byte) (file_seed : Z)
  : result (list byte) :=
  let global_seed := 123456789 in
  let x := crc global_seed file_seed (to_u32 block) in
  let y := 362436069 in
  let z := 521288629 in
  let w := 88675123 in
  get_block_loop (Z.to_nat (BLOCK_SIZE / sizeof_uint32)) x y z w buf.

(** ** The registry of test files *)

Record testfile_t : Type := {
  name : string;
  size : Z;       (* uint64_t *)
  seed : Z        (* uint32_t *)
}.

(** [testfile_list]: the linked list, head first. *)
Definition testfile_list : Type := list testfile_t.

(** The lookup loop shared by the FUSE operations: the first entry whose
    name [strcmp]s equal to [path]. *)
Definition lookup (l : testfile_list) (path : string) : option testfile_t :=
  find (fun testfile => String.eqb path (name testfile)) l.

(** [if (path[0] == '/') path++;] *)
Definition skip_slash (path : string) : string :=
  match path with
  | String "/"%char rest => rest
  | _ => path
  end.

Definition ENOENT : Z := 2.

(** ** The read fulfiller *)

(** [memcpy(dst, src, n)] *)
Definition memcpy (dst src : list byte) (n : Z) : result (list byte) :=
  if (0 <=? n) && (n <=? Z.of_nat (length src))
     && (n <=? Z.of_nat (length dst))
  then Ok (firstn (Z.to_nat n) src ++ skipn (Z.to_nat n) dst)
  else Fault.

(** One pass through the body of the [while (size)] loop of [fop_read],
    up to the three updates [buf += n; size -= n; abs_offset += n;] that
    end both of its branches, with [n = BLOCK_SIZE] in the first and
    [n = bytes] in the second.  [buf] is the memory from the current value
    of the pointer [buf] on; [block_buffer] is the content of the stack
    array of that name (the same stack slot in every pass, never
    initialised by the program).  The result is [n] and the two memories
    after the stores. *)
Definition read_pass (file_seed : Z) (buf : list byte) (size abs_offset : Z)
    (block_buffer : list byte) : result (Z * list byte * list byte) :=
  let block := to_u32 (Z.shiftr abs_offset BLOCK_SHIFT) in
  let offset := to_u32 (Z.land abs_offset OFFSET_MASK) in
  if (offset =? 0) && (BLOCK_SIZE <=? size) then
    (* ideal case -- aligned buffer of our block size *)
    buf <- get_block (to_int block) buf file_seed ;;
    Ok (BLOCK_SIZE, buf, block_buffer)
  else
    (* fulfill partial-block reads *)
    block_buffer <- get_block (to_int block) block_buffer file_seed ;;
    let bytes :=
      if size <? to_u32 (BLOCK_SIZE - offset)
      then to_int size
      else to_int (to_u32 (BLOCK_SIZE - offset)) in
    buf <- memcpy buf (skipn (Z.to_nat offset) block_buffer) (to_u64 bytes) ;;
    Ok (bytes, buf, block_buffer).

(** The loop.  The result is the memory from the value [buf] had on
    entry. *)
Fixpoint read_loop (fuel : nat) (file_seed : Z) (buf : list byte)
    (size abs_offset : Z) (block_buffer : list byte) : result (list byte) :=
  if size =? 0 then Ok buf else
  match fuel with
  | O => Timeout
  | S fuel' =>
      p <- read_pass file_seed buf size abs_offset block_buffer ;;
      let '(n, buf, block_buffer) := p in
      rest <- read_loop fuel' file_seed (skipn (Z.to_nat n) buf)
                (to_u64 (size - n)) (to_off_t (abs_offset + n)) block_buffer ;;
      Ok (firstn (Z.to_nat n) buf ++ rest)
  end.

(** [fop_read(path, buf, size, abs_offset, fi)]: the value returned and
    the memory at [buf] afterwards.  [block_buffer] is what the stack holds
    where the array of that name will live.  Every pass of the loop makes
    [size] smaller, so [size] passes are budget enough. *)
Definition fop_read (files : testfile_list) (path : string) (buf : list byte)
    (size abs_offset : Z) (block_buffer : list byte) : result (Z * list byte) :=
  (* skip the leading slash *)
  let path := skip_slash path in
  (* lookup the file *)
  match lookup files path with
  | None => Ok (- ENOENT, buf)
  | Some {| size := file_size; seed := file_seed |} =>
      (* limit to the size of the file *)
      let size :=
        if to_u64 (to_u64 abs_offset + size) >? file_size
        then to_u64 (file_size - abs_offset)
        else size in
      let orig_size := size in
      buf <- read_loop (Z.to_nat size) file_seed buf size abs_offset
               block_buffer ;;
      Ok (to_int orig_size, buf)
  end.

(** ** The other FUSE operations *)

(** The fields of [struct stat] that the program sets; [memset] clears
    them all. *)
Record stat : Type := {
  st_mode : Z;    (* mode_t *)
  st_nlink : Z;   (* nlink_t *)
  st_size : Z     (* off_t *)
}.

(** Constants of the system headers (Linux): [S_IFDIR] is 0040000,
    [S_IFREG] is 0100000, the permissions 0755 and 0444 are written in
    hexadecimal here. *)
Definition S_IFDIR : Z := 0x4000.
Definition S_IFREG : Z := 0x8000.
Definition mode_0755 : Z := 0x1ED.
Definition mode_0444 : Z := 0x124.
Definition O_RDONLY : Z := 0.
Definition EACCES : Z := 13.

(** [memset(st, 0, sizeof(struct stat))] *)
Definition memset_stat (st : stat) : stat :=
  {| st_mode := 0; st_nlink := 0; st_size := 0 |}.

(** [fop_getattr(path, st)]: the value returned and [*st] afterwards. *)
Definition fop_getattr (files : testfile_list) (path : string) (st : stat)
  : Z * stat :=
  let ret := 0 in
  let st := memset_stat st in
  if String.eqb path "/" then
    (0, {| st_mode := Z.lor S_IFDIR mode_0755; st_nlink := 2;
           st_size := st_size st |})
  else
    (* skip the leading slash *)
    let path := skip_slash path in
    match lookup files path with
    | Some testfile =>
        (ret, {| st_mode := Z.lor S_IFREG mode_0444; st_nlink := 1;
                 st_size := to_off_t (size testfile) |})
    | None => (- ENOENT, st)
    end.

(** A [fuse_fill_dir_t]: called as [filler(buf, name, stbuf, off)], it
    changes what [buf] points to and returns an [int]. *)
Definition fuse_fill_dir_t (B : Type) : Type :=
  B -> string -> option stat -> Z -> B * Z.

(** [fop_readdir(path, buf, filler, offset, fi)]: the value returned and
    what [buf] points to afterwards.  The program passes [NULL] and 0 to
    every call of [filler] and drops what it returns. *)
Definition fop_readdir {B : Type} (files : testfile_list) (path : string)
    (buf : B) (filler : fuse_fill_dir_t B) (offset : Z) : Z * B :=
  if negb (String.eqb path "/") then (- ENOENT, buf) else
  let buf := fst (filler buf "."%string None 0) in
  let buf := fst (filler buf ".."%string None 0) in
  let buf :=
    fold_left (fun buf testfile => fst (filler buf (name testfile) None 0))
      files buf in
  (0, buf).

(** [fop_open(path, fi)], on [fi->flags]. *)
Definition fop_open (files : testfile_list) (path : string) (flags : Z) : Z :=
  (* skip the leading slash *)
  let path := skip_slash path in
  match lookup files path with
  | Some _ => if negb (Z.land flags 3 =? O_RDONLY) then - EACCES else 0
  | None => - ENOENT
  end.

(** ** Registration of the files ([main]) *)

(** One file specification of the command line, as [main] sees it once
    [strtok_r] has cut its three fields and [strtoll] has run on the last
    two: the name, then for the size and for the seed the [long long] that
    [strtoll] returned and the character [*endptr] it stopped at. *)
Record file_spec : Type := {
  spec_name : string;
  size_value : Z;
  size_end : ascii;
  seed_value : Z;
  seed_end : ascii
}.

(** The size of a specification: the number, scaled by its suffix. *)
Definition parse_size (v : Z) (endc : ascii) : Z :=
  let size := to_u64 v in
  if (endc =? "k")%char || (endc =? "K")%char then to_u64 (size * 1024)
  else if (endc =? "m")%char || (endc =? "M")%char
       then to_u64 (size * (1024 * 1024))
  else if (endc =? "g")%char || (endc =? "G")%char
       then to_u64 (size * (1024 * 1024 * 1024))
  else size.

(** The body of the [do ... while] loop of [main] on a specification
    that has its three fields, [malloc] and [strdup] returning memory:
    [None] is [exit(EXIT_FAILURE)], otherwise the new head is linked in
    front of [testfile_list].  ([main_pass] below is the body on every
    input.) *)
Definition register (files : testfile_list) (fs : file_spec)
  : option testfile_list :=
  (* parse name: [name == '\0'] compares the pointer, which is not null
     here, so the test never fires *)
  (* parse size *)
  let size := parse_size (size_value fs) (size_end fs) in
  if size =? 0 then None else
  (* parse seed *)
  let seed := to_u32 (seed_value fs) in
  if (seed =? 0) || negb (seed_end fs =? zero)%char then None else
  (* add this <name,size,seed> tuple to the list *)
  Some ({| name := spec_name fs; size := size; seed := seed |} :: files).

(** The whole loop, over the specifications in command-line order. *)
Fixpoint register_all (files : testfile_list) (specs : list file_spec)
  : option testfile_list :=
  match specs with
  | [] => Some files
  | fs :: specs' =>
      match register files fs with
      | Some files' => register_all files' specs'
      | None => None
      end
  end.

(** [main] from the parsed specifications to the list it hands to
    [fuse_main]; [None] when it does not get to [fuse_main].  The
    [do ... while] loop runs at least once.  These three definitions
    follow [main] where every specification has its three fields and
    memory is available; [main] below follows it everywhere and tells the
    ways out apart. *)
Definition main_files (specs : list file_spec) : option testfile_list :=
  match specs with
  | [] => None
  | _ => register_all [] specs
  end.

(** *** Every way out of [main]

    [register] and [main_files] above follow [main] where [strtok_r] finds
    the three fields of every specification and [malloc] and [strdup]
    return memory.  The definitions below follow [main] on every command
    line, with the results of the library calls as input. *)

(** What the three calls of [strtok_r] on [","] return for one
    specification: each field, [None] standing for [NULL].  The size and
    the seed fields are given by what [strtoll] reads in them: the
    [long long] it returns and the character [*endptr] it stops at. *)
Record spec_fields : Type := {
  name_field : option string;
  size_field : option (Z * ascii);
  seed_field : option (Z * ascii)
}.

(** One pass of the [do ... while] loop as it meets the library: the
    fields, and whether [malloc] and [strdup] return memory. *)
Record pass_input : Type := {
  fields : spec_fields;
  malloc_ok : bool;
  strdup_ok : bool
}.

(** The messages before [exit(EXIT_FAILURE)]. *)
Inductive exit_reason : Type :=
| Usage            (* usage() *)
| Invalid_size     (* error: invalid size *)
| Invalid_seed     (* error: invalid seed *)
| Out_of_memory    (* error: out of memory *)
| No_test_files.   (* error: no test files specified *)

(** How [main] ends. *)
Inductive outcome : Type :=
| Serve (files : testfile_list)  (* fuse_main is called, testfile_list being as given *)
| Exit (reason : exit_reason)    (* the message, then exit(EXIT_FAILURE) *)
| Undefined.                     (* the behaviour is undefined *)

(** The body of the [do ... while] loop: the new [testfile_list], or the
    exit taken. *)
Definition main_pass (files : testfile_list) (p : pass_input)
  : testfile_list + exit_reason :=
  match name_field (fields p), size_field (fields p), seed_field (fields p) with
  | Some name, Some (size_value, size_end), Some (seed_value, seed_end) =>
      (* parse name: [name == '\0'] compares the pointer, which is not
         null here, so the test never fires *)
      (* parse size *)
      let size := parse_size size_value size_end in
      if size =? 0 then inr Invalid_size else
      (* parse seed *)
      let seed := to_u32 seed_value in
      if (seed =? 0) || negb (seed_end =? zero)%char then inr Invalid_seed else
      (* add this <name,size,seed> tuple to the list *)
      if negb (malloc_ok p) then inr Out_of_memory else
      if negb (strdup_ok p) then inr Out_of_memory else
      inl ({| name := name; size := size; seed := seed |} :: files)
  | _, _, _ =>
      (* (! name) || (!size_str) || (!seed_str) *)
      inr Usage
  end.

(** The passes of the loop, one for each token that [strtok_r] cuts out
    of [argv[1]] at the slashes. *)
Fixpoint main_loop (files : testfile_list) (inputs : list pass_input)
  : testfile_list + exit_reason :=
  match inputs with
  | [] => inl files
  | p :: inputs' =>
      match main_pass files p with
      | inl files' => main_loop files' inputs'
      | inr reason => inr reason
      end
  end.

(** [main(argc, argv)], up to the call of [fuse_main].  When [argv[1]]
    holds no token the first [strtok_r] returns [NULL], and the first pass
    hands that [NULL] to [strtok_r] with [save_fields], which nothing has
    initialised: the behaviour is undefined.  [testfile_list] is [NULL]
    when [main] starts. *)
Definition main (argc : Z) (inputs : list pass_input) : outcome :=
  if argc <? 2 then Exit Usage else
  match inputs with
  | [] => Undefined
  | _ =>
      match main_loop [] inputs with
      | inr reason => Exit reason
      | inl [] => Exit No_test_files
      | inl files => Serve files
      end
  end.

(** The fields of a specification that has the three of them. *)
Definition present (fs : file_spec) : spec_fields :=
  {| name_field := Some (spec_name fs);
     size_field := Some (size_value fs, size_end fs);
     seed_field := Some (seed_value fs, seed_end fs) |}.

(** A pass on a specification that has its three fields, with memory
    available: the passes that [register] follows. *)
Definition complete (fs : file_spec) : pass_input :=
  {| fields := present fs; malloc_ok := true; strdup_ok := true |}.

(** ** Reference definitions

    What the specification says the code computes, written independently
    of the loops above; the theorems below relate the two. *)

(** The xorshift generator: state [(a, b, c, d)], one step. *)
Definition xorshift_step (st : Z * Z * Z * Z) : Z * Z * Z * Z :=
  let '(a, b, c, d) := st in
  let t := Z.lxor a (Z.shiftl a 11 mod 2 ^ 32) in
  (b, c, d, Z.lxor (Z.lxor d (Z.shiftr d 19)) (Z.lxor t (Z.shiftr t 8))).

(** The word a state has just emitted. *)
Definition xorshift_out (st : Z * Z * Z * Z) : Z := snd st.

(** The first [n] words emitted after state [st]. *)
Fixpoint xorshift_words (n : nat) (st : Z * Z * Z * Z) : list Z :=
  match n with
  | O => []
  | S n' =>
      let st' := xorshift_step st in
      xorshift_out st' :: xorshift_words n' st'
  end.

Definition xorshift_init (x : Z) : Z * Z * Z * Z :=
  (x, 362436069, 521288629, 88675123).

(** The bytes of block [block] (a [uint32_t]) of a file with seed
    [file_seed]. *)
Definition block_data (block file_seed : Z) : list byte :=
  flat_map (le_split 4)
    (xorshift_words (Z.to_nat (BLOCK_SIZE / 4))
       (xorshift_init (crc 123456789 file_seed block))).

(** [generate_block(block_index, file_seed)]: what [get_block] leaves in a
    fresh buffer of one block. *)
Definition generate_block (block_index file_seed : Z) : list byte :=
  match get_block block_index (repeat Byte.x00 (Z.to_nat BLOCK_SIZE)) file_seed with
  | Ok buf => buf
  | _ => []
  end.

(** Byte [p] of the file: byte [p mod BLOCK_SIZE] of block
    [p / BLOCK_SIZE], the block index cut to 32 bits as in [fop_read]. *)
Definition byte_at (file_seed : Z) (p : Z) : byte :=
  nth (Z.to_nat (p mod BLOCK_SIZE))
      (block_data (to_u32 (p / BLOCK_SIZE)) file_seed) Byte.x00.

(** The [n] bytes of the file from position [p] on. *)
Fixpoint bytes_from (file_seed : Z) (n : nat) (p : Z) : list byte :=
  match n with
  | O => []
  | S n' => byte_at file_seed p :: bytes_from file_seed n' (p + 1)
  end.

(** The integers [a, a+1, ..., a+n-1]. *)
Fixpoint Zseq (a : Z) (n : nat) : list Z :=
  match n with
  | O => []
  | S n' => a :: Zseq (a + 1) n'
  end.

(** The blocks that cover [[offset, offset+length)], generated one after
    the other, and the slice of their concatenation that is the range. *)
Definition covering_blocks (file_seed offset length : Z) : list byte :=
  let first := offset / BLOCK_SIZE in
  let count := (offset mod BLOCK_SIZE + length + BLOCK_SIZE - 1) / BLOCK_SIZE in
  concat (map (fun b => generate_block b file_seed) (Zseq first (Z.to_nat count))).

Definition slice_of_blocks (file_seed offset length : Z) : list byte :=
  firstn (Z.to_nat length)
    (skipn (Z.to_nat (offset mod BLOCK_SIZE))
       (covering_blocks file_seed offset length)).

(** The length of a request after clamping to the file size. *)
Definition clamped_length (file_size offset length : Z) : Z :=
  if offset + length >? file_size then file_size - offset else length.

(** The value a call returned, when it returned. *)
Definition returned {A} (r : result (Z * A)) : option Z :=
  match r with
  | Ok (v, _) => Some v
  | _ => None
  end.

(** The number of bytes one pass of the read loop handles. *)
Definition pass_length (size abs_offset : Z) : Z :=
  let offset := abs_offset mod BLOCK_SIZE in
  if (offset =? 0) && (BLOCK_SIZE <=? size) then BLOCK_SIZE
  else Z.min size (BLOCK_SIZE - offset).

(** ** Auxiliary definitions of the proofs *)

Definition in_u32 (x : Z) : Prop := 0 <= x < 2 ^ 32.

(** A pass of the loop of [crc] that is not the refilling one, on the bits
    of its operands. *)
Definition crc_pass (st : Z * Z) : Z * Z :=
  let '(a, n) := st in
  let a1 := if Z.testbit a 31 then Z.lxor a divisor else a in
  let n1 := if Z.testbit a 31 then Z.lxor n divisor_next else n in
  (Z.lor (to_u32 (Z.shiftl a1 1)) (Z.b2z (Z.testbit n1 31)),
   to_u32 (Z.shiftl n1 1)).

(** [n] such passes. *)
Fixpoint crc_passes (n : nat) (st : Z * Z) : Z * Z :=
  match n with
  | O => st
  | S n' => crc_pass (crc_passes n' st)
  end.

(** The word a step of the generator emits, from the first and the last
    state word. *)
Definition xorshift_word (x w : Z) : Z :=
  let t := Z.lxor x (to_u32 (Z.shiftl x 11)) in
  Z.lxor (Z.lxor w (Z.shiftr w 19)) (Z.lxor t (Z.shiftr t 8)).

(** Inverses of the two scramblings of a step, on 32-bit words. *)
Definition undo_shl11 (t : Z) : Z :=
  Z.lxor t (Z.lxor (to_u32 (Z.shiftl t 11)) (to_u32 (Z.shiftl t 22))).

Definition undo_shr8 (u : Z) : Z :=
  Z.lxor (Z.lxor u (Z.shiftr u 8)) (Z.lxor (Z.shiftr u 16) (Z.shiftr u 24)).

(** What [main] guarantees of every file it links into the list. *)
Definition wf_file (f : testfile_t) : Prop :=
  0 < size f < 2 ^ 64 /\ 0 < seed f < 2 ^ 32.

(** The lists [main] can hand to [fuse_main]. *)
Definition registered (files : testfile_list) : Prop :=
  exists specs, main_files specs = Some files.

(** ** Example registries *)

(** [testfile_1M,1M,1], the first file of the usage example. *)
Definition testfile_1M : testfile_list :=
  [{| name := "testfile_1M"; size := 1048576; seed := 1 |}].

(** [f,100,1] *)
Definition file_100 : testfile_list :=
  [{| name := "f"; size := 100; seed := 1 |}].

(** [big,4G,1] *)
Definition file_4G : testfile_list :=
  [{| name := "big"; size := 4294967296; seed := 1 |}].

(** [a,100,7/b,100,7] ([main] links each file in front of the earlier
    ones). *)
Definition twin_files : testfile_list :=
  [{| name := "b"; size := 100; seed := 7 |};
   {| name := "a"; size := 100; seed := 7 |}].

(** ** Definitions for the further properties *)

(** The entry [main] makes of a specification it accepts. *)
Definition file_of_spec (fs : file_spec) : testfile_t :=
  {| name := spec_name fs;
     size := parse_size (size_value fs) (size_end fs);
     seed := to_u32 (seed_value fs) |}.

(** A [filler] that appends the name to a list of names and reports that
    there is room for more. *)
Definition record_name : fuse_fill_dir_t (list string) :=
  fun buf name _ _ => (buf ++ [name], 0).

(** What [fop_getattr] reports of a regular file of [size] bytes. *)
Definition file_stat (size : Z) : stat :=
  {| st_mode := Z.lor S_IFREG mode_0444; st_nlink := 1;
     st_size := to_off_t size |}.

(** What [fop_getattr] reports of the root directory. *)
Definition root_stat : stat :=
  {| st_mode := Z.lor S_IFDIR mode_0755; st_nlink := 2; st_size := 0 |}.

(** [big,1048576G,1]: 2^50 bytes. *)
Definition file_1P : testfile_list :=
  [{| name := "big"; size := 2 ^ 50; seed := 1 |}].

(** The command line [a,100,7/b,100,7]. *)
Definition two_specs : list file_spec :=
  [{| spec_name := "a"; size_value := 100; size_end := zero;
      seed_value := 7; seed_end := zero |};
   {| spec_name := "b"; size_value := 100; size_end := zero;
      seed_value := 7; seed_end := zero |}].

(** The number of blocks that the [size] bytes from [abs_offset] on lie
    in. *)
Definition blocks_touched (size abs_offset : Z) : Z :=
  if size =? 0 then 0
  else (abs_offset mod BLOCK_SIZE + size + BLOCK_SIZE - 1) / BLOCK_SIZE.

(** * Properties *)

(** ** The model runs *)

(** The mixed seed of block 0 of a file with seed 1, and the first two
    words of that block as they lie in memory. *)
Example crc_seed_1_block_0 : crc 123456789 1 0 = 0xD1C87C74.
Proof. vm_compute. reflexivity. Qed.

Example block_0_first_bytes :
  firstn 8 (generate_block 0 1)
  = [Byte.x32; Byte.xe4; Byte.xf0; Byte.x97;
     Byte.x54; Byte.xbe; Byte.x02; Byte.x50].
Proof. vm_compute. reflexivity. Qed.

(** ** Fixed-width integers *)

Lemma to_u32_range x : in_u32 (to_u32 x).
Proof. unfold in_u32, to_u32. apply Z.mod_pos_bound. lia. Qed.

Lemma to_u32_small x : in_u32 x -> to_u32 x = x.
Proof. unfold in_u32, to_u32. intros. apply Z.mod_small. lia. Qed.

Lemma to_u64_small x : 0 <= x < 2 ^ 64 -> to_u64 x = x.
Proof. intros. unfold to_u64. apply Z.mod_small. lia. Qed.

Lemma to_int_small x : - 2 ^ 31 <= x < 2 ^ 31 -> to_int x = x.
Proof. intros. unfold to_int. rewrite Z.mod_small; lia. Qed.

Lemma to_u32_to_int x : to_u32 (to_int x) = to_u32 x.
Proof. unfold to_u32, to_int. Z.div_mod_to_equations. lia. Qed.

Lemma to_off_t_wrap p : exists k, to_off_t p = p + k * 2 ^ 64.
Proof.
  exists (- ((p + 2 ^ 63) / 2 ^ 64)). unfold to_off_t.
  Z.div_mod_to_equations. lia.
Qed.

Lemma to_u32_succ_ne i : to_u32 i <> to_u32 (i + 1).
Proof. unfold to_u32. Z.div_mod_to_equations. lia. Qed.

(** ** Bits of 32-bit words *)

Lemma in_u32_bits x : in_u32 x -> x = x mod 2 ^ 32.
Proof. intros. symmetry. apply Z.mod_small. exact H. Qed.

Lemma lxor_u32 a b : in_u32 a -> in_u32 b -> in_u32 (Z.lxor a b).
Proof.
  intros Ha Hb. rewrite (in_u32_bits a Ha), (in_u32_bits b Hb).
  replace (Z.lxor (a mod 2 ^ 32) (b mod 2 ^ 32)) with (Z.lxor a b mod 2 ^ 32).
  - apply Z.mod_pos_bound. lia.
  - Z.bitblast.
Qed.

Lemma shiftr_u32 a n : 0 <= n -> in_u32 a -> in_u32 (Z.shiftr a n).
Proof.
  intros Hn Ha. rewrite (in_u32_bits a Ha).
  replace (Z.shiftr (a mod 2 ^ 32) n) with (Z.shiftr (a mod 2 ^ 32) n mod 2 ^ 32).
  - apply Z.mod_pos_bound. lia.
  - Z.bitblast.
Qed.

Lemma land_msb a : (Z.land a msb_mask =? 0) = negb (Z.testbit a 31).
Proof.
  replace (Z.land a msb_mask) with (if Z.testbit a 31 then 2 ^ 31 else 0).
  - destruct (Z.testbit a 31); reflexivity.
  - unfold msb_mask. change 0x80000000 with (2 ^ 31).
    destruct (Z.testbit a 31) eqn:E; Z.bitblast;
      destruct (Z.eqb_spec 31 i); subst; rewrite ?E, ?andb_false_r; reflexivity.
Qed.

Lemma testbit_b2z c i : Z.testbit (Z.b2z c) i = c && (i =? 0).
Proof.
  destruct c; simpl.
  - change 1 with (2 ^ 0). rewrite Z.pow2_bits_eqb by lia. apply Z.eqb_sym.
  - apply Z.testbit_0_l.
Qed.

Lemma lor_b2z_u32 a c : in_u32 (Z.lor (to_u32 a) (Z.b2z c)).
Proof.
  replace (Z.lor (to_u32 a) (Z.b2z c)) with (Z.lor a (Z.b2z c) mod 2 ^ 32).
  - apply Z.mod_pos_bound. lia.
  - unfold to_u32. Z.bitblast. rewrite testbit_b2z.
    destruct (Z.eqb_spec i 0); [lia|]. rewrite andb_false_r. reflexivity.
Qed.

Lemma u32_high_bits x i : in_u32 x -> 32 <= i -> Z.testbit x i = false.
Proof.
  intros Hx Hi. rewrite (in_u32_bits x Hx). rewrite Z.testbit_mod_pow2 by lia.
  destruct (Z.ltb_spec i 32); [lia|reflexivity].
Qed.

Lemma lxor_cancel_l k a b : Z.lxor k a = Z.lxor k b -> a = b.
Proof.
  intros H. apply (f_equal (Z.lxor k)) in H.
  rewrite <- !Z.lxor_assoc, Z.lxor_nilpotent, !Z.lxor_0_l in H. exact H.
Qed.

Lemma divisor_next_eq : divisor_next = 2 ^ 31.
Proof. reflexivity. Qed.

(** Tactics for equalities between bitwise expressions, bit by bit. *)

Ltac bool_atoms :=
  repeat match goal with
         | |- context [Z.testbit ?x ?i] => destruct (Z.testbit x i)
         end;
  cbn; try congruence; try tauto.

Ltac drop_neg_bits :=
  repeat match goal with
         | |- context [Z.testbit ?x ?i] =>
             rewrite (Z.testbit_neg_r x i) by lia
         end.

Ltac decide_eqbs :=
  repeat match goal with
         | |- context [?x =? ?y] => destruct (Z.eqb_spec x y); try lia
         end.

Ltac drop_high_bits :=
  repeat match goal with
         | Hx : in_u32 ?x |- context [Z.testbit ?x ?i] =>
             rewrite (u32_high_bits x i Hx) by lia
         end.

Ltac bits_done :=
  unfold to_u32; rewrite ?divisor_next_eq;
  Z.rewrite_bitwise; rewrite ?testbit_b2z; Z.rewrite_bitwise;
  Z.discover_equal_testbit_indices; Z.destruct_ltbs; try lia;
  decide_eqbs; drop_neg_bits; drop_high_bits; bool_atoms.

(** Bit [i] of both sides of [H], as an implication in front of the goal. *)
Ltac bit_of H i :=
  generalize (f_equal (fun x => Z.testbit x i) H); cbv beta.

(** ** The seed mixing *)

(** The body of the loop is [crc_pass], after the refill in pass 32. *)
Lemma crc_body_refill block a n :
  crc_body block 32 (a, n) = crc_pass (a, block).
Proof.
  unfold crc_body, crc_pass. cbv zeta.
  change (32 =? 1 * sizeof_uint32 * 8) with true. cbv iota.
  rewrite land_msb, negb_involutive.
  destruct (Z.testbit a 31); rewrite land_msb, negb_involutive;
    match goal with |- context [Z.b2z ?c] => destruct c end;
    simpl Z.b2z; rewrite ?Z.lor_0_r; reflexivity.
Qed.

Lemma crc_body_other block i st :
  i <> 32 -> crc_body block i st = crc_pass st.
Proof.
  intros Hi. destruct st as [a n]. unfold crc_body, crc_pass. cbv zeta.
  change (1 * sizeof_uint32 * 8) with 32.
  destruct (Z.eqb_spec i 32) as [E|_]; [contradiction|].
  rewrite land_msb, negb_involutive.
  destruct (Z.testbit a 31); rewrite land_msb, negb_involutive;
    match goal with |- context [Z.b2z ?c] => destruct c end;
    simpl Z.b2z; rewrite ?Z.lor_0_r; reflexivity.
Qed.

Lemma crc_pass_range st : in_u32 (fst (crc_pass st)) /\ in_u32 (snd (crc_pass st)).
Proof.
  destruct st as [a n]. unfold crc_pass. cbv zeta. cbn [fst snd]. split.
  - apply lor_b2z_u32.
  - apply to_u32_range.
Qed.

Lemma crc_pass_inj a a' n :
  in_u32 a -> in_u32 a' ->
  fst (crc_pass (a, n)) = fst (crc_pass (a', n)) -> a = a'.
Proof.
  intros Ha Ha' H. unfold crc_pass in H. cbv zeta in H. cbn [fst] in H.
  destruct (Z.testbit a 31) eqn:E, (Z.testbit a' 31) eqn:E'.
  - apply Z.bits_inj'. intros i Hi.
    destruct (Z.ltb_spec i 31); [|destruct (Z.eq_dec i 31)].
    + bit_of H (i + 1). bits_done.
    + subst i. congruence.
    + rewrite !u32_high_bits by (assumption || lia). reflexivity.
  - exfalso. bit_of H 0. bits_done.
  - exfalso. bit_of H 0. bits_done.
  - apply Z.bits_inj'. intros i Hi.
    destruct (Z.ltb_spec i 31); [|destruct (Z.eq_dec i 31)].
    + bit_of H (i + 1). bits_done.
    + subst i. congruence.
    + rewrite !u32_high_bits by (assumption || lia). reflexivity.
Qed.

Lemma crc_pass_snd a a' n : snd (crc_pass (a, n)) = snd (crc_pass (a', n)).
Proof.
  unfold crc_pass. cbv zeta. cbn [snd]. rewrite divisor_next_eq. unfold to_u32.
  destruct (Z.testbit a 31), (Z.testbit a' 31); try reflexivity;
    Z.bitblast; decide_eqbs; bool_atoms.
Qed.

Lemma crc_pass_next a n : snd (crc_pass (a, n)) = to_u32 (Z.shiftl n 1).
Proof.
  unfold crc_pass. cbv zeta. cbn [snd].
  apply Z.bits_inj'. intros i Hi.
  destruct (Z.testbit a 31); bits_done.
Qed.

Lemma crc_pass_shift_next a n k b :
  0 <= k -> n = to_u32 (Z.shiftl b k) ->
  snd (crc_pass (a, n)) = to_u32 (Z.shiftl b (k + 1)).
Proof.
  intros Hk ->. unfold crc_pass. cbv zeta. cbn [snd].
  apply Z.bits_inj'. intros i Hi.
  destruct (Z.testbit a 31); bits_done.
Qed.

Lemma crc_passes_succ_r n : forall st,
  crc_passes (S n) st = crc_passes n (crc_pass st).
Proof.
  induction n as [|n IH]; intros st; [reflexivity|].
  change (crc_passes (S (S n)) st) with (crc_pass (crc_passes (S n) st)).
  rewrite IH. reflexivity.
Qed.

Lemma crc_passes_add n m st :
  crc_passes (n + m) st = crc_passes n (crc_passes m st).
Proof.
  induction n as [|n IH]; [reflexivity|].
  cbn [Nat.add crc_passes]. rewrite IH. reflexivity.
Qed.

Lemma crc_passes_range n st :
  (0 < n)%nat -> in_u32 (fst (crc_passes n st)) /\ in_u32 (snd (crc_passes n st)).
Proof.
  destruct n as [|n]; [lia|]. intros _. cbn [crc_passes].
  apply crc_pass_range.
Qed.

Lemma crc_loop_no_refill n : forall block i st,
  32 < i \/ i + Z.of_nat n <= 32 ->
  crc_loop n block i st = crc_passes n st.
Proof.
  induction n as [|n IH]; intros block i st Hi; [reflexivity|].
  rewrite crc_passes_succ_r. cbn [crc_loop].
  rewrite crc_body_other by lia. apply IH. lia.
Qed.

Lemma crc_loop_split n m : forall block i st,
  crc_loop (n + m) block i st
  = crc_loop m block (i + Z.of_nat n) (crc_loop n block i st).
Proof.
  induction n as [|n IH]; intros block i st.
  - cbn [crc_loop Nat.add]. f_equal. cbn. lia.
  - cbn [crc_loop Nat.add]. rewrite IH. f_equal. lia.
Qed.

Lemma crc_loop_next n : forall block i a k b,
  32 < i -> 0 <= k ->
  snd (crc_loop n block i (a, to_u32 (Z.shiftl b k)))
  = to_u32 (Z.shiftl b (k + Z.of_nat n)).
Proof.
  induction n as [|n IH]; intros block i a k b Hi Hk.
  - cbn [crc_loop snd Z.of_nat]. rewrite Z.add_0_r. reflexivity.
  - cbn [crc_loop]. rewrite crc_body_other by lia.
    pose proof (crc_pass_shift_next a (to_u32 (Z.shiftl b k)) k b Hk eq_refl) as Hs.
    destruct (crc_pass (a, to_u32 (Z.shiftl b k))) as [a1 n1].
    cbn [snd] in Hs. subst n1. rewrite IH by lia. f_equal. f_equal. lia.
Qed.

(** The three thirds of the loop of [crc]. *)
Lemma crc_thirds global_seed file_seed block :
  crc global_seed file_seed block
  = fst (crc_passes 64 (fst (crc_passes 32 (global_seed, file_seed)), block)).
Proof.
  unfold crc. change (Z.to_nat (3 * sizeof_uint32 * 8)) with (32 + (1 + 63))%nat.
  rewrite crc_loop_split, crc_loop_split.
  rewrite (crc_loop_no_refill 32) by lia.
  rewrite (crc_loop_no_refill 63) by (cbn; lia).
  destruct (crc_passes 32 (global_seed, file_seed)) as [c n].
  cbn [crc_loop fst]. change (0 + Z.of_nat 32) with 32.
  rewrite crc_body_refill.
  rewrite <- crc_passes_succ_r. reflexivity.
Qed.

Lemma crc_range g f b : in_u32 (crc g f b).
Proof.
  rewrite crc_thirds.
  exact (proj1 (crc_passes_range 64 _ ltac:(lia))).
Qed.

(** Two runs of the loop on the same seeds and on different blocks. *)
Section TwoBlocks.

Variables b b' : Z.
Hypothesis Hb : in_u32 b.
Hypothesis Hb' : in_u32 b'.

(** Runs whose remainders differ by the top [k] bits of [b xor b'], and
    which still have the low bits of [b] and of [b'] to shift in, take the
    same branch and differ afterwards by the top [k+1] bits. *)
Lemma crc_pass_diff k a a' :
  0 <= k < 32 ->
  Z.lxor a a' = Z.shiftr (Z.lxor b b') (32 - k) ->
  Z.lxor (fst (crc_pass (a, to_u32 (Z.shiftl b k))))
         (fst (crc_pass (a', to_u32 (Z.shiftl b' k))))
  = Z.shiftr (Z.lxor b b') (32 - (k + 1)).
Proof.
  intros Hk Hx.
  assert (Hd : Z.testbit a 31 = Z.testbit a' 31).
  { bit_of Hx 31. bits_done. }
  unfold crc_pass. cbv zeta. cbn [fst]. rewrite <- Hd.
  apply Z.bits_inj'. intros i Hi.
  destruct (Z.eq_dec i 0) as [->|Hi0]; [|destruct (Z.ltb_spec i 32)].
  - clear Hx. destruct (Z.testbit a 31); bits_done.
  - bit_of Hx (i - 1). destruct (Z.testbit a 31); bits_done.
  - clear Hx Hd. destruct (Z.testbit a 31); bits_done.
Qed.

(** The middle third: the bits of the block go into the remainder. *)
Lemma crc_passes_middle c k :
  (k <= 32)%nat ->
  Z.lxor (fst (crc_passes k (c, b))) (fst (crc_passes k (c, b')))
  = Z.shiftr (Z.lxor b b') (32 - Z.of_nat k)
  /\ snd (crc_passes k (c, b)) = to_u32 (Z.shiftl b (Z.of_nat k))
  /\ snd (crc_passes k (c, b')) = to_u32 (Z.shiftl b' (Z.of_nat k)).
Proof.
  induction k as [|k IH]; intros Hk.
  - cbn [crc_passes fst snd Z.of_nat].
    rewrite Z.lxor_nilpotent, !Z.shiftl_0_r, !to_u32_small by assumption.
    repeat split. symmetry. apply Z.bits_inj'. intros i Hi. bits_done.
  - destruct IH as (Hx & Hn & Hn'); [lia|].
    cbn [crc_passes].
    destruct (crc_passes k (c, b)) as [a n].
    destruct (crc_passes k (c, b')) as [a' n'].
    cbn [fst snd] in Hx, Hn, Hn'. rewrite Nat2Z.inj_succ.
    unfold Z.succ. repeat split.
    + subst n n'. apply crc_pass_diff; assumption || lia.
    + apply crc_pass_shift_next; assumption || lia.
    + apply crc_pass_shift_next; assumption || lia.
Qed.

End TwoBlocks.

Lemma crc_passes_last a a' n : in_u32 a -> in_u32 a' -> a <> a' ->
  forall k, fst (crc_passes k (a, n)) <> fst (crc_passes k (a', n)).
Proof.
  intros Ha Ha' Hne k. revert a a' n Ha Ha' Hne.
  induction k as [|k IH]; intros a a' n Ha Ha' Hne; [exact Hne|].
  rewrite !crc_passes_succ_r.
  pose proof (crc_pass_snd a a' n) as Hs.
  pose proof (crc_pass_range (a, n)) as [Hr _].
  pose proof (crc_pass_range (a', n)) as [Hr' _].
  assert (Hf : fst (crc_pass (a, n)) <> fst (crc_pass (a', n))).
  { intros E. apply Hne. eapply crc_pass_inj; eassumption. }
  destruct (crc_pass (a, n)) as [a1 n1], (crc_pass (a', n)) as [a1' n1'].
  cbn [fst snd] in *. subst n1'. apply IH; assumption.
Qed.

(** [crc] is one-to-one in the block number. *)
Lemma crc_block_inj global_seed file_seed b b' :
  in_u32 b -> in_u32 b' -> b <> b' ->
  crc global_seed file_seed b <> crc global_seed file_seed b'.
Proof.
  intros Hb Hb' Hne. rewrite !crc_thirds.
  set (c := fst (crc_passes 32 (global_seed, file_seed))).
  change 64%nat with (32 + 32)%nat.
  rewrite !crc_passes_add.
  destruct (crc_passes_middle b b' Hb Hb' c 32 (le_n _)) as (Hx & Hn & Hn').
  pose proof (crc_passes_range 32 (c, b) ltac:(lia)) as [Hr _].
  pose proof (crc_passes_range 32 (c, b') ltac:(lia)) as [Hr' _].
  destruct (crc_passes 32 (c, b)) as [a n], (crc_passes 32 (c, b')) as [a' n'].
  cbn [fst snd] in *.
  assert (Hz : forall v, to_u32 (Z.shiftl v (Z.of_nat 32)) = 0).
  { intros v. unfold to_u32. rewrite Z.shiftl_mul_pow2 by lia. apply Z.mod_mul. lia. }
  rewrite Hz in Hn, Hn'. subst n n'. apply crc_passes_last; try assumption.
  intros ->. rewrite Z.lxor_nilpotent in Hx. change (32 - Z.of_nat 32) with 0 in Hx.
  rewrite Z.shiftr_0_r in Hx. symmetry in Hx. apply Z.lxor_eq in Hx. contradiction.
Qed.
(** ** Lists *)

Lemma skipn_nth_cons {A} (d : A) : forall (l : list A) j,
  (j < length l)%nat -> skipn j l = nth j l d :: skipn (S j) l.
Proof.
  induction l as [|a l IH]; intros j Hj; cbn [length] in Hj; [lia|].
  destruct j as [|j]; [reflexivity|]. cbn [skipn nth]. apply IH. lia.
Qed.

Lemma skipn_app_exact {A} (l r : list A) n :
  length l = n -> skipn n (l ++ r) = r.
Proof.
  intros <-. rewrite skipn_app, skipn_all, Nat.sub_diag. reflexivity.
Qed.

Lemma firstn_app_exact {A} (l r : list A) n :
  length l = n -> firstn n (l ++ r) = l.
Proof.
  intros <-. rewrite firstn_app, firstn_all, Nat.sub_diag.
  cbn [firstn]. apply app_nil_r.
Qed.

Lemma firstn_skipn_app {A} (l r : list A) j n :
  (j + n <= length l)%nat -> firstn n (skipn j (l ++ r)) = firstn n (skipn j l).
Proof.
  intros H. rewrite skipn_app, firstn_app, length_skipn.
  replace (n - (length l - j))%nat with 0%nat by lia.
  cbn [firstn]. apply app_nil_r.
Qed.

(** ** The xorshift generator *)

Lemma undo_shl11_ok x :
  in_u32 x -> undo_shl11 (Z.lxor x (to_u32 (Z.shiftl x 11))) = x.
Proof.
  intros Hx. unfold undo_shl11. apply Z.bits_inj'. intros i Hi. bits_done.
Qed.

Lemma undo_shr8_ok t :
  in_u32 t -> undo_shr8 (Z.lxor t (Z.shiftr t 8)) = t.
Proof.
  intros Ht. unfold undo_shr8. apply Z.bits_inj'. intros i Hi. bits_done.
Qed.

Lemma xorshift_t_range x : in_u32 x -> in_u32 (Z.lxor x (to_u32 (Z.shiftl x 11))).
Proof. intros. apply lxor_u32; [assumption|apply to_u32_range]. Qed.

Lemma xorshift_word_range x w : in_u32 x -> in_u32 w -> in_u32 (xorshift_word x w).
Proof.
  intros Hx Hw. unfold xorshift_word. cbv zeta.
  repeat first [assumption | apply to_u32_range | apply lxor_u32
               | apply shiftr_u32 | lia].
Qed.

Lemma xorshift_word_inj x x' w :
  in_u32 x -> in_u32 x' -> xorshift_word x w = xorshift_word x' w -> x = x'.
Proof.
  intros Hx Hx' H. unfold xorshift_word in H. cbv zeta in H.
  apply lxor_cancel_l in H.
  apply (f_equal undo_shr8) in H.
  rewrite !undo_shr8_ok in H by (apply xorshift_t_range; assumption).
  apply (f_equal undo_shl11) in H.
  rewrite !undo_shl11_ok in H by assumption. exact H.
Qed.

Lemma xorshift_step_eq x y z w :
  xorshift_step (x, y, z, w) = (y, z, w, xorshift_word x w).
Proof. reflexivity. Qed.

Lemma xorshift_words_length n : forall st, length (xorshift_words n st) = n.
Proof.
  induction n as [|n IH]; intros st; [reflexivity|].
  cbn [xorshift_words length]. rewrite IH. reflexivity.
Qed.

Lemma xorshift_words_range n : forall x y z w,
  in_u32 x -> in_u32 y -> in_u32 z -> in_u32 w ->
  Forall in_u32 (xorshift_words n (x, y, z, w)).
Proof.
  induction n as [|n IH]; intros x y z w Hx Hy Hz Hw; [constructor|].
  cbn [xorshift_words]. rewrite xorshift_step_eq.
  pose proof (xorshift_word_range x w Hx Hw).
  constructor; [assumption|]. apply IH; assumption.
Qed.

Lemma le_words_length ws :
  length (flat_map (le_split 4) ws) = (4 * length ws)%nat.
Proof.
  induction ws as [|w ws IH]; [reflexivity|].
  cbn [flat_map]. rewrite length_app, IH, length_le_split. cbn [length]. lia.
Qed.

Lemma le_combine_split4 w : in_u32 w -> le_combine (le_split 4 w) = w.
Proof.
  intros Hw. rewrite le_combine_split. apply Z.mod_small. exact Hw.
Qed.

(** ** [get_block] *)

Lemma skipn_le_split4 v (rest : list byte) :
  skipn 4 (le_split 4 v ++ rest) = rest.
Proof. reflexivity. Qed.

Lemma firstn_le_split4 v (rest : list byte) :
  firstn 4 (le_split 4 v ++ rest) = le_split 4 v.
Proof. reflexivity. Qed.

(** The loop of [get_block] writes the words of the generator, in order,
    over the first [4 * n] bytes of the buffer. *)
Lemma get_block_loop_spec n : forall x y z w buf,
  (4 * n <= length buf)%nat ->
  get_block_loop n x y z w buf
  = Ok (flat_map (le_split 4) (xorshift_words n (x, y, z, w))
        ++ skipn (4 * n) buf).
Proof.
  induction n as [|n IH]; intros x y z w buf Hlen; [reflexivity|].
  destruct buf as [|b0 [|b1 [|b2 [|b3 rest]]]]; cbn [length] in Hlen; try lia.
  cbn [get_block_loop xorshift_words]. rewrite xorshift_step_eq.
  fold (xorshift_word x w). unfold store32.
  cbn [bind]. rewrite skipn_le_split4, firstn_le_split4.
  rewrite IH by lia. cbn [bind xorshift_out snd flat_map].
  replace (4 * S n)%nat with (4 + 4 * n)%nat by lia.
  rewrite <- app_assoc. reflexivity.
Qed.

Lemma get_block_loop_short n : forall x y z w buf,
  (length buf < 4 * n)%nat -> get_block_loop n x y z w buf = Fault.
Proof.
  induction n as [|n IH]; intros x y z w buf Hlen; [lia|].
  cbn [get_block_loop].
  destruct buf as [|b0 [|b1 [|b2 [|b3 rest]]]]; try reflexivity.
  cbn [length] in Hlen. unfold store32. cbn [bind].
  rewrite skipn_le_split4, IH by lia. reflexivity.
Qed.

Lemma block_words : Z.to_nat (BLOCK_SIZE / sizeof_uint32) = Z.to_nat (BLOCK_SIZE / 4).
Proof. reflexivity. Qed.

Lemma block_data_unfold b s :
  block_data b s
  = flat_map (le_split 4)
      (xorshift_words (Z.to_nat (BLOCK_SIZE / 4))
         (crc 123456789 s b, 362436069, 521288629, 88675123)).
Proof. reflexivity. Qed.

Lemma block_data_length block file_seed :
  Z.of_nat (length (block_data block file_seed)) = BLOCK_SIZE.
Proof.
  unfold block_data. rewrite le_words_length, xorshift_words_length.
  change (BLOCK_SIZE / 4) with 16384. change BLOCK_SIZE with 65536. lia.
Qed.

Lemma block_data_first b s :
  exists rest,
    block_data b s
    = le_split 4 (xorshift_word (crc 123456789 s b) 88675123) ++ rest.
Proof.
  unfold block_data.
  replace (Z.to_nat (BLOCK_SIZE / 4)) with (S (Z.to_nat 16383))
    by (change (BLOCK_SIZE / 4) with 16384; lia).
  generalize (Z.to_nat 16383). intros n.
  unfold xorshift_init. cbn [xorshift_words]. rewrite xorshift_step_eq.
  cbn [flat_map xorshift_out snd]. eexists. reflexivity.
Qed.

(** Blocks whose first state words differ differ in their first word. *)
Lemma block_data_inj b b' s :
  in_u32 b -> in_u32 b' -> b <> b' -> block_data b s <> block_data b' s.
Proof.
  intros Hb Hb' Hne E.
  apply (crc_block_inj 123456789 s b b' Hb Hb' Hne).
  pose proof (crc_range 123456789 s b) as Hx.
  pose proof (crc_range 123456789 s b') as Hx'.
  destruct (block_data_first b s) as [r Hr].
  destruct (block_data_first b' s) as [r' Hr'].
  rewrite Hr, Hr' in E.
  apply (f_equal (firstn 4)) in E.
  rewrite !firstn_app_exact in E by apply length_le_split.
  apply (f_equal le_combine) in E.
  rewrite !le_combine_split4 in E
    by (apply xorshift_word_range; [assumption|unfold in_u32; lia]).
  eapply xorshift_word_inj; eassumption.
Qed.

(** [get_block] overwrites the first block of the buffer with the block's
    data, whatever was there, and leaves the rest. *)
Lemma get_block_spec block buf file_seed :
  BLOCK_SIZE <= Z.of_nat (length buf) ->
  get_block block buf file_seed
  = Ok (block_data (to_u32 block) file_seed ++ skipn (Z.to_nat BLOCK_SIZE) buf).
Proof.
  intros Hlen. unfold get_block. cbv zeta.
  rewrite get_block_loop_spec.
  - unfold block_data, xorshift_init. rewrite block_words.
    replace (4 * Z.to_nat (BLOCK_SIZE / 4))%nat with (Z.to_nat BLOCK_SIZE);
      [reflexivity|].
    change (BLOCK_SIZE / 4) with 16384. change BLOCK_SIZE with 65536. lia.
  - change (BLOCK_SIZE / sizeof_uint32) with 16384. change BLOCK_SIZE with 65536 in Hlen. lia.
Qed.

Lemma get_block_short block buf file_seed :
  Z.of_nat (length buf) < BLOCK_SIZE -> get_block block buf file_seed = Fault.
Proof.
  intros Hlen. unfold get_block. cbv zeta. apply get_block_loop_short.
  change (BLOCK_SIZE / sizeof_uint32) with 16384. change BLOCK_SIZE with 65536 in Hlen. lia.
Qed.

Lemma get_block_no_timeout block buf s : get_block block buf s <> Timeout.
Proof.
  destruct (Z.ltb_spec (Z.of_nat (length buf)) BLOCK_SIZE).
  - rewrite get_block_short by assumption. discriminate.
  - rewrite get_block_spec by assumption. discriminate.
Qed.

Lemma generate_block_eq b s : generate_block b s = block_data (to_u32 b) s.
Proof.
  unfold generate_block. rewrite get_block_spec.
  - rewrite skipn_all2 by (rewrite repeat_length; lia). apply app_nil_r.
  - rewrite repeat_length. change BLOCK_SIZE with 65536. lia.
Qed.

Lemma generate_block_length b s :
  length (generate_block b s) = Z.to_nat BLOCK_SIZE.
Proof.
  rewrite generate_block_eq. pose proof (block_data_length (to_u32 b) s). lia.
Qed.

(** From here on the generator is used through the lemmas above only. *)
#[local] Opaque crc crc_pass block_data get_block generate_block.

(** ** The bytes of a file *)

Lemma block_of_offset p : Z.shiftr p BLOCK_SHIFT = p / BLOCK_SIZE.
Proof. apply Z.shiftr_div_pow2. unfold BLOCK_SHIFT. lia. Qed.

Lemma offset_in_block p : to_u32 (Z.land p OFFSET_MASK) = p mod BLOCK_SIZE.
Proof.
  change OFFSET_MASK with (Z.ones 16). rewrite Z.land_ones by lia.
  change (2 ^ 16) with BLOCK_SIZE. apply to_u32_small.
  unfold in_u32. pose proof (Z.mod_pos_bound p BLOCK_SIZE ltac:(reflexivity)).
  change BLOCK_SIZE with 65536 in *. lia.
Qed.

Lemma offset_split p : p = p / BLOCK_SIZE * BLOCK_SIZE + p mod BLOCK_SIZE.
Proof. rewrite Z.mul_comm. apply Z.div_mod. discriminate. Qed.

Lemma bytes_from_length s n : forall p, length (bytes_from s n p) = n.
Proof.
  induction n as [|n IH]; intros p; [reflexivity|].
  cbn [bytes_from length]. rewrite IH. reflexivity.
Qed.

Lemma bytes_from_app s n m : forall p,
  bytes_from s (n + m) p = bytes_from s n p ++ bytes_from s m (p + Z.of_nat n).
Proof.
  induction n as [|n IH]; intros p.
  - cbn [bytes_from Nat.add app Z.of_nat]. rewrite Z.add_0_r. reflexivity.
  - cbn [bytes_from Nat.add app]. rewrite IH. do 3 f_equal. lia.
Qed.

Lemma bytes_from_skipn s j n p :
  skipn j (bytes_from s (j + n) p) = bytes_from s n (p + Z.of_nat j).
Proof.
  rewrite bytes_from_app. apply skipn_app_exact, bytes_from_length.
Qed.

Lemma bytes_from_firstn s n m p :
  firstn n (bytes_from s (n + m) p) = bytes_from s n p.
Proof.
  rewrite bytes_from_app. apply firstn_app_exact, bytes_from_length.
Qed.

Lemma byte_at_wrap s p k : byte_at s (p + k * 2 ^ 64) = byte_at s p.
Proof.
  unfold byte_at.
  replace ((p + k * 2 ^ 64) mod BLOCK_SIZE) with (p mod BLOCK_SIZE).
  2:{ change (2 ^ 64) with (2 ^ 48 * BLOCK_SIZE). rewrite Z.mul_assoc.
      rewrite Z.mod_add; [reflexivity|discriminate]. }
  replace (to_u32 ((p + k * 2 ^ 64) / BLOCK_SIZE)) with (to_u32 (p / BLOCK_SIZE));
    [reflexivity|].
  change (2 ^ 64) with (2 ^ 48 * BLOCK_SIZE). rewrite Z.mul_assoc.
  rewrite Z.div_add by discriminate. unfold to_u32.
  change (2 ^ 48) with (2 ^ 16 * 2 ^ 32). rewrite Z.mul_assoc.
  rewrite Z.mod_add; [reflexivity|discriminate].
Qed.

Lemma bytes_from_wrap s n : forall p k,
  bytes_from s n (p + k * 2 ^ 64) = bytes_from s n p.
Proof.
  induction n as [|n IH]; intros p k; [reflexivity|].
  cbn [bytes_from]. rewrite byte_at_wrap. f_equal.
  replace (p + k * 2 ^ 64 + 1) with (p + 1 + k * 2 ^ 64) by lia. apply IH.
Qed.

Lemma bytes_from_off_t s n p : bytes_from s n (to_off_t p) = bytes_from s n p.
Proof. destruct (to_off_t_wrap p) as [k ->]. apply bytes_from_wrap. Qed.

(** A run of bytes inside one block is a slice of that block. *)
Lemma bytes_from_block s q n : forall j,
  0 <= j -> j + Z.of_nat n <= BLOCK_SIZE ->
  bytes_from s n (q * BLOCK_SIZE + j)
  = firstn n (skipn (Z.to_nat j) (block_data (to_u32 q) s)).
Proof.
  induction n as [|n IH]; intros j Hj Hn; [reflexivity|].
  cbn [bytes_from].
  rewrite (skipn_nth_cons Byte.x00).
  2:{ pose proof (block_data_length (to_u32 q) s). lia. }
  rewrite firstn_cons. apply (f_equal2 cons).
  - unfold byte_at.
    assert (Hb : 0 < BLOCK_SIZE) by reflexivity.
    replace ((q * BLOCK_SIZE + j) mod BLOCK_SIZE) with j.
    2:{ rewrite Z.add_comm, Z.mod_add by lia. symmetry. apply Z.mod_small. lia. }
    replace ((q * BLOCK_SIZE + j) / BLOCK_SIZE) with q.
    2:{ rewrite Z.add_comm, Z.div_add by lia. rewrite Z.div_small; lia. }
    reflexivity.
  - replace (q * BLOCK_SIZE + j + 1) with (q * BLOCK_SIZE + (j + 1)) by lia.
    rewrite IH by lia. do 2 f_equal. lia.
Qed.

Lemma block_data_bytes q s :
  block_data (to_u32 q) s = bytes_from s (Z.to_nat BLOCK_SIZE) (q * BLOCK_SIZE).
Proof.
  pose proof (bytes_from_block s q (Z.to_nat BLOCK_SIZE) 0) as H.
  rewrite Z.add_0_r in H. rewrite H by (change BLOCK_SIZE with 65536; lia).
  change (Z.to_nat 0) with 0%nat. rewrite skipn_O. symmetry. apply firstn_all2.
  pose proof (block_data_length (to_u32 q) s). lia.
Qed.

Lemma covering_concat s count : forall first,
  concat (map (fun b => generate_block b s) (Zseq first count))
  = bytes_from s (count * Z.to_nat BLOCK_SIZE) (first * BLOCK_SIZE).
Proof.
  induction count as [|count IH]; intros first; [reflexivity|].
  cbn [Zseq map concat]. rewrite IH, generate_block_eq, block_data_bytes.
  replace (S count * Z.to_nat BLOCK_SIZE)%nat
    with (Z.to_nat BLOCK_SIZE + count * Z.to_nat BLOCK_SIZE)%nat by lia.
  rewrite bytes_from_app. do 2 f_equal. change BLOCK_SIZE with 65536. lia.
Qed.

(** Slicing the covering blocks gives the bytes of the range. *)
Lemma slice_of_blocks_eq s offset len :
  0 <= len ->
  slice_of_blocks s offset len = bytes_from s (Z.to_nat len) offset.
Proof.
  intros Hlen. unfold slice_of_blocks, covering_blocks. cbv zeta.
  rewrite covering_concat.
  pose proof (Z.mod_pos_bound offset BLOCK_SIZE ltac:(reflexivity)) as Ho.
  set (o := offset mod BLOCK_SIZE) in *.
  set (count := (o + len + BLOCK_SIZE - 1) / BLOCK_SIZE).
  assert (Hc : 0 <= count /\ o + len <= count * BLOCK_SIZE).
  { subst count. change BLOCK_SIZE with 65536 in *.
    Z.div_mod_to_equations. lia. }
  replace (Z.to_nat count * Z.to_nat BLOCK_SIZE)%nat
    with (Z.to_nat o + (Z.to_nat len + Z.to_nat (count * BLOCK_SIZE - o - len)))%nat.
  2:{ rewrite <- Z2Nat.inj_mul by (change BLOCK_SIZE with 65536; lia). lia. }
  rewrite bytes_from_skipn, bytes_from_firstn. f_equal.
  subst o. rewrite Z2Nat.id by lia. symmetry. apply offset_split.
Qed.

(** ** One pass of the read loop *)

Lemma pass_length_bounds size abs_offset :
  0 < size ->
  1 <= pass_length size abs_offset <= size
  /\ abs_offset mod BLOCK_SIZE + pass_length size abs_offset <= BLOCK_SIZE.
Proof.
  intros Hs. unfold pass_length. cbv zeta.
  pose proof (Z.mod_pos_bound abs_offset BLOCK_SIZE ltac:(reflexivity)) as Ho.
  destruct (Z.eqb_spec (abs_offset mod BLOCK_SIZE) 0) as [E|E];
    destruct (Z.leb_spec BLOCK_SIZE size); cbn [andb];
    change BLOCK_SIZE with 65536 in *; lia.
Qed.

(** The [bytes] of the second branch. *)
Lemma partial_bytes size offset :
  0 < size < 2 ^ 64 -> 0 <= offset < BLOCK_SIZE ->
  (if size <? to_u32 (BLOCK_SIZE - offset)
   then to_int size else to_int (to_u32 (BLOCK_SIZE - offset)))
  = Z.min size (BLOCK_SIZE - offset).
Proof.
  intros Hs Ho. change BLOCK_SIZE with 65536 in *.
  rewrite (to_u32_small (65536 - offset)) by (unfold in_u32; lia).
  destruct (Z.ltb_spec size (65536 - offset)); rewrite to_int_small; lia.
Qed.

Lemma read_pass_count s buf size abs_offset bb n buf' bb' :
  0 < size < 2 ^ 64 ->
  read_pass s buf size abs_offset bb = Ok (n, buf', bb') ->
  n = pass_length size abs_offset.
Proof.
  intros Hs. unfold read_pass, pass_length. cbv zeta.
  rewrite offset_in_block.
  pose proof (Z.mod_pos_bound abs_offset BLOCK_SIZE ltac:(reflexivity)) as Ho.
  destruct ((abs_offset mod BLOCK_SIZE =? 0) && (BLOCK_SIZE <=? size)).
  - destruct (get_block _ buf s); cbn [bind]; congruence.
  - rewrite partial_bytes by assumption.
    destruct (get_block _ bb s); cbn [bind]; try congruence.
    destruct (memcpy _ _ _); cbn [bind]; congruence.
Qed.

(** With room for its bytes a pass stores the next [pass_length] bytes of
    the file and leaves a full block in [block_buffer]. *)
Lemma read_pass_spec s buf size abs_offset bb :
  0 < size < 2 ^ 64 ->
  pass_length size abs_offset <= Z.of_nat (length buf) ->
  BLOCK_SIZE <= Z.of_nat (length bb) ->
  let n := pass_length size abs_offset in
  exists bb',
    BLOCK_SIZE <= Z.of_nat (length bb')
    /\ read_pass s buf size abs_offset bb
       = Ok (n, bytes_from s (Z.to_nat n) abs_offset ++ skipn (Z.to_nat n) buf, bb').
Proof.
  intros Hs Hbuf Hbb n.
  pose proof (pass_length_bounds size abs_offset ltac:(lia)) as [Hn Hfit].
  fold n in Hn, Hfit, Hbuf.
  pose proof (Z.mod_pos_bound abs_offset BLOCK_SIZE ltac:(reflexivity)) as Ho.
  assert (Hdata : bytes_from s (Z.to_nat n) abs_offset
                  = firstn (Z.to_nat n)
                      (skipn (Z.to_nat (abs_offset mod BLOCK_SIZE))
                         (block_data (to_u32 (abs_offset / BLOCK_SIZE)) s))).
  { rewrite (offset_split abs_offset) at 1. apply bytes_from_block; lia. }
  pose proof (block_data_length (to_u32 (abs_offset / BLOCK_SIZE)) s) as Hlen.
  unfold read_pass. cbv zeta.
  rewrite offset_in_block, block_of_offset.
  assert (Hblk : to_u32 (to_int (to_u32 (abs_offset / BLOCK_SIZE)))
                 = to_u32 (abs_offset / BLOCK_SIZE)).
  { rewrite to_u32_to_int. apply to_u32_small, to_u32_range. }
  subst n. unfold pass_length in *. cbv zeta in *.
  destruct ((abs_offset mod BLOCK_SIZE =? 0) && (BLOCK_SIZE <=? size)) eqn:Hcase.
  - apply andb_true_iff in Hcase. destruct Hcase as [Hz _].
    apply Z.eqb_eq in Hz. rewrite Hz in Hdata. cbn [Z.to_nat skipn] in Hdata.
    exists bb. split; [assumption|].
    rewrite get_block_spec, Hblk by lia. cbn [bind]. rewrite Hdata.
    rewrite firstn_all2 by lia. reflexivity.
  - rewrite partial_bytes by assumption.
    rewrite get_block_spec, Hblk by assumption. cbn [bind].
    set (n := Z.min size (BLOCK_SIZE - abs_offset mod BLOCK_SIZE)) in *.
    set (bb' := block_data _ s ++ skipn (Z.to_nat BLOCK_SIZE) bb).
    exists bb'. split.
    + subst bb'. rewrite length_app. lia.
    + unfold memcpy. rewrite to_u64_small by lia.
      replace ((0 <=? n) && (n <=? Z.of_nat (length (skipn _ bb')))
               && (n <=? Z.of_nat (length buf))) with true.
      * cbn [bind]. subst bb'. rewrite firstn_skipn_app by lia.
        rewrite Hdata. reflexivity.
      * symmetry. rewrite !andb_true_iff, !Z.leb_le. rewrite length_skipn.
        subst bb'. rewrite length_app. lia.
Qed.

Lemma read_pass_no_timeout s buf size abs_offset bb :
  read_pass s buf size abs_offset bb <> Timeout.
Proof.
  unfold read_pass. cbv zeta.
  destruct (_ && _).
  - pose proof (get_block_no_timeout
                  (to_int (to_u32 (Z.shiftr abs_offset BLOCK_SHIFT))) buf s).
    destruct (get_block _ buf s); cbn [bind]; congruence.
  - pose proof (get_block_no_timeout
                  (to_int (to_u32 (Z.shiftr abs_offset BLOCK_SHIFT))) bb s).
    destruct (get_block _ bb s); cbn [bind]; try congruence.
    unfold memcpy. destruct (_ && _); cbn [bind]; discriminate.
Qed.

(** ** The read loop *)

Lemma read_loop_unfold fuel s buf size abs_offset bb :
  read_loop (S fuel) s buf size abs_offset bb
  = if size =? 0 then Ok buf else
      p <- read_pass s buf size abs_offset bb ;;
      let '(n, buf, block_buffer) := p in
      rest <- read_loop fuel s (skipn (Z.to_nat n) buf)
                (to_u64 (size - n)) (to_off_t (abs_offset + n)) block_buffer ;;
      Ok (firstn (Z.to_nat n) buf ++ rest).
Proof. reflexivity. Qed.

Lemma read_loop_done fuel s buf abs_offset bb :
  read_loop fuel s buf 0 abs_offset bb = Ok buf.
Proof. destruct fuel; reflexivity. Qed.

(** With room for [size] bytes the loop stores the [size] bytes of the
    file from [abs_offset] on, and nothing else. *)
Lemma read_loop_spec fuel : forall s buf size abs_offset bb,
  0 <= size < 2 ^ 64 ->
  (Z.to_nat size <= fuel)%nat ->
  size <= Z.of_nat (length buf) ->
  BLOCK_SIZE <= Z.of_nat (length bb) ->
  read_loop fuel s buf size abs_offset bb
  = Ok (bytes_from s (Z.to_nat size) abs_offset ++ skipn (Z.to_nat size) buf).
Proof.
  induction fuel as [|fuel IH]; intros s buf size abs_offset bb Hs Hfuel Hbuf Hbb.
  - replace size with 0 by lia. reflexivity.
  - rewrite read_loop_unfold.
    destruct (Z.eqb_spec size 0) as [->|Hnz]; [reflexivity|].
    pose proof (pass_length_bounds size abs_offset ltac:(lia)) as [Hn _].
    destruct (read_pass_spec s buf size abs_offset bb) as (bb' & Hbb' & ->);
      try lia.
    set (n := pass_length size abs_offset) in *.
    cbn [bind].
    rewrite skipn_app_exact, firstn_app_exact by apply bytes_from_length.
    rewrite to_u64_small by lia.
    rewrite IH; try lia.
    2:{ rewrite length_skipn. lia. }
    cbn [bind]. rewrite bytes_from_off_t, skipn_skipn.
    replace (Z.to_nat size) with (Z.to_nat n + Z.to_nat (size - n))%nat by lia.
    rewrite bytes_from_app, <- app_assoc, Z2Nat.id by lia.
    rewrite (Nat.add_comm (Z.to_nat (size - n))). reflexivity.
Qed.

(** A budget of [size] passes is never used up. *)
Lemma read_loop_no_timeout fuel : forall s buf size abs_offset bb,
  0 <= size < 2 ^ 64 ->
  (Z.to_nat size <= fuel)%nat ->
  read_loop fuel s buf size abs_offset bb <> Timeout.
Proof.
  induction fuel as [|fuel IH]; intros s buf size abs_offset bb Hs Hfuel.
  - replace size with 0 by lia. discriminate.
  - rewrite read_loop_unfold.
    destruct (Z.eqb_spec size 0) as [->|Hnz]; [discriminate|].
    pose proof (read_pass_no_timeout s buf size abs_offset bb) as Hp.
    destruct (read_pass s buf size abs_offset bb) as [[[n buf'] bb']| |] eqn:E;
      cbn [bind]; try congruence.
    apply read_pass_count in E; [|lia].
    pose proof (pass_length_bounds size abs_offset ltac:(lia)) as [Hn _].
    rewrite <- E in Hn.
    rewrite to_u64_small by lia.
    specialize (IH s (skipn (Z.to_nat n) buf') (size - n)
                  (to_off_t (abs_offset + n)) bb' ltac:(lia) ltac:(lia)).
    destruct (read_loop fuel s _ (size - n) _ bb'); cbn [bind];
      congruence.
Qed.

(** ** The registry *)

Lemma register_wf files fs files' :
  register files fs = Some files' -> Forall wf_file files -> Forall wf_file files'.
Proof.
  unfold register. cbv zeta. intros H Hwf.
  destruct (Z.eqb_spec (parse_size (size_value fs) (size_end fs)) 0) as [|Hsz];
    [discriminate|].
  destruct (Z.eqb_spec (to_u32 (seed_value fs)) 0) as [|Hsd]; [discriminate|].
  cbn [orb] in H. destruct (negb _); [discriminate|].
  injection H as <-. constructor; [|assumption].
  split; cbn [size seed].
  - assert (0 <= parse_size (size_value fs) (size_end fs) < 2 ^ 64); [|lia].
    unfold parse_size, to_u64. cbv zeta.
    repeat match goal with |- context [if ?c then _ else _] => destruct c end;
      apply Z.mod_pos_bound; lia.
  - pose proof (to_u32_range (seed_value fs)). unfold in_u32 in *. lia.
Qed.

Lemma register_all_wf specs : forall files files',
  register_all files specs = Some files' ->
  Forall wf_file files -> Forall wf_file files'.
Proof.
  induction specs as [|fs specs IH]; intros files files' H Hwf.
  - injection H as <-. assumption.
  - cbn [register_all] in H. destruct (register files fs) eqn:E; [|discriminate].
    eapply IH; [eassumption|]. eapply register_wf; eassumption.
Qed.

Lemma registered_wf files path f :
  registered files -> lookup files path = Some f -> wf_file f.
Proof.
  intros [specs Hreg] Hl. apply find_some in Hl. destruct Hl as [Hin _].
  assert (Hall : register_all [] specs = Some files).
  { destruct specs; [discriminate|exact Hreg]. }
  pose proof (register_all_wf specs [] files Hall (Forall_nil _)) as Hwf.
  rewrite Forall_forall in Hwf. apply Hwf, Hin.
Qed.

Lemma testfile_1M_registered : registered testfile_1M.
Proof.
  exists [{| spec_name := "testfile_1M"; size_value := 1; size_end := "M";
             seed_value := 1; seed_end := zero |}].
  reflexivity.
Qed.

(** ** [fop_read] *)

Lemma fop_read_found files path f buf len abs_offset bb :
  lookup files (skip_slash path) = Some f ->
  fop_read files path buf len abs_offset bb
  = let size :=
      if to_u64 (to_u64 abs_offset + len) >? size f
      then to_u64 (size f - abs_offset) else len in
    buf <- read_loop (Z.to_nat size) (seed f) buf size abs_offset bb ;;
    Ok (to_int size, buf).
Proof. intros H. unfold fop_read. rewrite H. destruct f. reflexivity. Qed.

Lemma clamp_in_range fsize abs_offset len :
  0 <= abs_offset <= fsize -> fsize < 2 ^ 64 -> 0 <= len ->
  abs_offset + len < 2 ^ 64 ->
  (if to_u64 (to_u64 abs_offset + len) >? fsize
   then to_u64 (fsize - abs_offset) else len)
  = clamped_length fsize abs_offset len.
Proof.
  intros Ho Hf Hl Hw. unfold clamped_length.
  rewrite (to_u64_small abs_offset), (to_u64_small (abs_offset + len)) by lia.
  destruct (abs_offset + len >? fsize); [|reflexivity].
  apply to_u64_small. lia.
Qed.

Lemma clamped_length_bounds fsize abs_offset len :
  0 <= abs_offset <= fsize -> 0 <= len ->
  0 <= clamped_length fsize abs_offset len <= len
  /\ abs_offset + clamped_length fsize abs_offset len <= fsize.
Proof.
  intros Ho Hl. unfold clamped_length.
  destruct (Z.gtb_spec (abs_offset + len) fsize); lia.
Qed.

(** A request that starts inside the file (or at its end) and whose
    buffer has room for the clamped length. *)
Lemma fop_read_spec files path f buf len abs_offset bb :
  lookup files (skip_slash path) = Some f ->
  size f < 2 ^ 64 ->
  0 <= abs_offset <= size f -> 0 <= len -> abs_offset + len < 2 ^ 64 ->
  clamped_length (size f) abs_offset len <= Z.of_nat (length buf) ->
  BLOCK_SIZE <= Z.of_nat (length bb) ->
  let n := clamped_length (size f) abs_offset len in
  fop_read files path buf len abs_offset bb
  = Ok (to_int n,
        bytes_from (seed f) (Z.to_nat n) abs_offset ++ skipn (Z.to_nat n) buf).
Proof.
  intros Hl Hf Ho Hlen Hw Hbuf Hbb n.
  rewrite (fop_read_found _ _ f) by assumption. cbv zeta.
  rewrite clamp_in_range by lia. fold n.
  pose proof (clamped_length_bounds (size f) abs_offset len Ho Hlen) as [Hn Hn'].
  fold n in Hn, Hn', Hbuf.
  rewrite read_loop_spec; try lia. reflexivity.
Qed.

Lemma read_at_end_of_file files path f buf len bb :
  lookup files (skip_slash path) = Some f ->
  0 <= size f < 2 ^ 63 -> 0 <= len < 2 ^ 63 ->
  fop_read files path buf len (size f) bb = Ok (0, buf).
Proof.
  intros Hl Hs Hlen. rewrite (fop_read_found _ _ f) by assumption. cbv zeta.
  rewrite (to_u64_small (size f)), (to_u64_small (size f + len)) by lia.
  rewrite Z.sub_diag. change (to_u64 0) with 0.
  destruct (size f + len >? size f) eqn:E.
  - change (Z.to_nat 0) with 0%nat. reflexivity.
  - assert (len = 0) as -> by lia. reflexivity.
Qed.

(** ** Every way out of [main] *)

Lemma main_pass_inl files p files' :
  main_pass files p = inl files' <->
  exists fs,
    fields p = present fs
    /\ parse_size (size_value fs) (size_end fs) <> 0
    /\ to_u32 (seed_value fs) <> 0 /\ seed_end fs = zero
    /\ malloc_ok p = true /\ strdup_ok p = true
    /\ files' = file_of_spec fs :: files.
Proof.
  unfold main_pass. destruct p as [[nm sz sd] m d].
  cbn [fields name_field size_field seed_field malloc_ok strdup_ok].
  split.
  - destruct nm as [nm|]; [|discriminate].
    destruct sz as [[sv se]|]; [|discriminate].
    destruct sd as [[dv de]|]; [|discriminate]. cbv zeta.
    destruct (Z.eqb_spec (parse_size sv se) 0) as [|Hs]; [discriminate|].
    destruct (Z.eqb_spec (to_u32 dv) 0) as [|Hd]; [discriminate|].
    destruct (Ascii.eqb_spec de zero) as [He|]; [|discriminate].
    cbn [orb negb]. destruct m; [|discriminate]. destruct d; [|discriminate].
    cbn [negb]. intros E.
    exists {| spec_name := nm; size_value := sv; size_end := se;
              seed_value := dv; seed_end := de |}.
    cbn [spec_name size_value size_end seed_value seed_end].
    unfold present, file_of_spec.
    cbn [spec_name size_value size_end seed_value seed_end].
    repeat (split; [first [reflexivity | assumption]|]).
    injection E as <-. reflexivity.
  - intros (fs & Hf & Hs & Hd & He & Hm & Hdup & ->).
    unfold present in Hf. injection Hf as -> -> ->. subst m d. cbv zeta.
    destruct (Z.eqb_spec (parse_size (size_value fs) (size_end fs)) 0);
      [contradiction|].
    destruct (Z.eqb_spec (to_u32 (seed_value fs)) 0); [contradiction|].
    rewrite He. reflexivity.
Qed.

Lemma main_pass_invalid_size files p :
  main_pass files p = inr Invalid_size <->
  exists nm sv se seedf,
    fields p = {| name_field := Some nm; size_field := Some (sv, se);
                  seed_field := Some seedf |}
    /\ parse_size sv se = 0.
Proof.
  unfold main_pass. destruct p as [[nm sz sd] m d].
  cbn [fields name_field size_field seed_field malloc_ok strdup_ok].
  split.
  - destruct nm as [nm|]; [|discriminate].
    destruct sz as [[sv se]|]; [|discriminate].
    destruct sd as [[dv de]|]; [|discriminate]. cbv zeta.
    destruct (Z.eqb_spec (parse_size sv se) 0) as [Hs|Hs].
    + intros _. exists nm, sv, se, (dv, de). split; [reflexivity|exact Hs].
    + destruct (_ || _); [discriminate|].
      destruct (negb m); [discriminate|]. destruct (negb d); discriminate.
  - intros (nm' & sv & se & [dv de] & Hf & Hs). injection Hf as -> -> ->.
    cbv zeta. rewrite Hs. reflexivity.
Qed.

Lemma main_loop_app files before : forall after,
  main_loop files (before ++ after)
  = match main_loop files before with
    | inl files' => main_loop files' after
    | inr reason => inr reason
    end.
Proof.
  revert files. induction before as [|p before IH]; intros files after.
  - reflexivity.
  - cbn [app main_loop]. destruct (main_pass files p); [apply IH|reflexivity].
Qed.

Lemma main_loop_inr inputs : forall files reason,
  main_loop files inputs = inr reason <->
  exists before p after files',
    inputs = before ++ p :: after
    /\ main_loop files before = inl files'
    /\ main_pass files' p = inr reason.
Proof.
  induction inputs as [|q inputs IH]; intros files reason.
  - cbn [main_loop]. split; [discriminate|].
    intros (before & p & after & files' & E & _). destruct before; discriminate.
  - cbn [main_loop]. destruct (main_pass files q) as [files1|r] eqn:Hq.
    + rewrite IH. split.
      * intros (before & p & after & files' & -> & Hb & Hp).
        exists (q :: before), p, after, files'.
        cbn [app main_loop]. rewrite Hq. auto.
      * intros (before & p & after & files' & E & Hb & Hp).
        destruct before as [|q' before].
        -- cbn [app] in E. injection E as <- <-. cbn [main_loop] in Hb.
           injection Hb as <-. rewrite Hq in Hp. discriminate.
        -- cbn [app] in E. injection E as <- ->. cbn [main_loop] in Hb.
           rewrite Hq in Hb. exists before, p, after, files'. auto.
    + split.
      * intros E. injection E as <-. exists [], q, inputs, files.
        cbn [app main_loop]. auto.
      * intros (before & p & after & files' & E & Hb & Hp).
        destruct before as [|q' before].
        -- cbn [app] in E. injection E as <- <-. cbn [main_loop] in Hb.
           injection Hb as <-. rewrite Hq in Hp. exact Hp.
        -- cbn [app] in E. injection E as <- ->. cbn [main_loop] in Hb.
           rewrite Hq in Hb. discriminate.
Qed.

Lemma main_loop_inl inputs : forall files files',
  main_loop files inputs = inl files' <->
  exists specs,
    map fields inputs = map present specs
    /\ Forall (fun fs => parse_size (size_value fs) (size_end fs) <> 0
                         /\ to_u32 (seed_value fs) <> 0
                         /\ seed_end fs = zero) specs
    /\ Forall (fun p => malloc_ok p = true /\ strdup_ok p = true) inputs
    /\ files' = rev (map file_of_spec specs) ++ files.
Proof.
  induction inputs as [|q inputs IH]; intros files files'.
  - cbn [main_loop]. split.
    + intros E. injection E as <-. exists []. cbn [map rev app]. auto.
    + intros (specs & Hm & _ & _ & ->). destruct specs; [reflexivity|discriminate].
  - cbn [main_loop]. split.
    + destruct (main_pass files q) as [files1|r] eqn:Hq; [|discriminate].
      apply main_pass_inl in Hq.
      destruct Hq as (fs & Hf & Hs & Hd & He & Hm & Hdup & ->).
      rewrite IH. intros (specs & Hmap & Hv & Ha & ->).
      exists (fs :: specs). cbn [map rev]. rewrite Hf, Hmap, <- app_assoc.
      cbn [app]. split; [reflexivity|]. split; [|split; [|reflexivity]].
      * constructor; auto.
      * constructor; auto.
    + intros (specs & Hmap & Hv & Ha & ->).
      destruct specs as [|fs specs]; [discriminate|].
      cbn [map] in Hmap. injection Hmap as Hf Hmap.
      inversion Hv as [|? ? (Hs & Hd & He) Hv']. subst.
      inversion Ha as [|? ? (Hm & Hdup) Ha']. subst.
      assert (Hq : main_pass files q = inl (file_of_spec fs :: files)).
      { apply main_pass_inl. exists fs. auto 10. }
      rewrite Hq. apply IH. exists specs. cbn [map rev].
      rewrite <- app_assoc. cbn [app]. auto.
Qed.

Lemma main_serve argc inputs files :
  2 <= argc ->
  (main argc inputs = Serve files
   <-> inputs <> [] /\ main_loop [] inputs = inl files /\ files <> []).
Proof.
  intros Hargc. unfold main.
  destruct (Z.ltb_spec argc 2) as [|_]; [lia|].
  destruct inputs as [|p inputs].
  - split; [discriminate|]. intros [H _]. contradiction.
  - destruct (main_loop [] (p :: inputs)) as [[|t l]|r].
    + split; [discriminate|]. intros (_ & E & H). injection E as <-.
      contradiction.
    + split.
      * intros E. injection E as <-. repeat split; discriminate.
      * intros (_ & E & _). injection E as <-. reflexivity.
    + split; [discriminate|]. intros (_ & E & _). discriminate.
Qed.

Lemma main_exit argc inputs reason :
  main argc inputs = Exit reason
  <-> (argc < 2 /\ reason = Usage)
      \/ (2 <= argc /\ inputs <> []
          /\ (main_loop [] inputs = inr reason
              \/ (main_loop [] inputs = inl [] /\ reason = No_test_files))).
Proof.
  unfold main. destruct (Z.ltb_spec argc 2) as [Hlt|Hge].
  - split.
    + intros E. injection E as <-. left. split; [exact Hlt|reflexivity].
    + intros [[_ ->]|[H _]]; [reflexivity|lia].
  - destruct inputs as [|p inputs].
    + split; [discriminate|]. intros [[H _]|(_ & H & _)]; [lia|contradiction].
    + destruct (main_loop [] (p :: inputs)) as [[|t l]|r].
      * split.
        -- intros E. injection E as <-. right.
           split; [exact Hge|]. split; [discriminate|]. right. auto.
        -- intros [[H _]|(_ & _ & [E|[_ ->]])];
             [lia|discriminate|reflexivity].
      * split; [discriminate|].
        intros [[H _]|(_ & _ & [E|[E _]])]; [lia|discriminate|discriminate].
      * split.
        -- intros E. injection E as <-. right.
           split; [exact Hge|]. split; [discriminate|]. left. reflexivity.
        -- intros [[H _]|(_ & _ & [E|[E _]])];
             [lia|injection E as <-; reflexivity|discriminate].
Qed.

Lemma present_inj a b : present a = present b -> a = b.
Proof.
  destruct a, b. unfold present.
  cbn [spec_name size_value size_end seed_value seed_end].
  intros E. injection E as -> -> -> -> ->. reflexivity.
Qed.

Lemma map_present_inj l : forall l', map present l = map present l' -> l = l'.
Proof.
  induction l as [|a l IH]; intros [|b l'] E; try discriminate;
    [reflexivity|].
  cbn [map] in E.
  pose proof (f_equal (hd (present a)) E) as Ha. cbn [hd] in Ha.
  pose proof (f_equal (@tl _) E) as Et. cbn [tl] in Et.
  apply present_inj in Ha. apply IH in Et. subst. reflexivity.
Qed.

Lemma main_loop_first files p inputs files' :
  main_loop files (p :: inputs) = inl files' -> files' <> [].
Proof.
  intros H. apply main_loop_inl in H.
  destruct H as (specs & Hmap & _ & _ & ->).
  destruct specs as [|fs specs]; [discriminate|]. cbn [map rev].
  intros E. apply app_eq_nil in E. destruct E as [E _].
  apply app_eq_nil in E. destruct E; discriminate.
Qed.

Lemma main_loop_complete_sizes specs files :
  Forall (fun fs => to_u32 (seed_value fs) <> 0 /\ seed_end fs = zero) specs ->
  (main_loop files (map complete specs)
   = inl (rev (map file_of_spec specs) ++ files)
   <-> Forall (fun fs => parse_size (size_value fs) (size_end fs) <> 0) specs).
Proof.
  intros Hseed. rewrite main_loop_inl. split.
  - intros (specs' & Hmap & Hv & _ & _).
    rewrite map_map in Hmap. cbn [complete fields] in Hmap.
    apply map_present_inj in Hmap. subst specs'.
    eapply Forall_impl; [|exact Hv]. intros a (H & _). exact H.
  - intros Hsize. exists specs. rewrite map_map. cbn [complete fields].
    split; [reflexivity|]. split; [|split; [|reflexivity]].
    + rewrite Forall_forall in *. intros a Ha.
      destruct (Hseed a Ha). auto.
    + rewrite Forall_forall. intros p Hp. apply in_map_iff in Hp.
      destruct Hp as (fs & <- & _). split; reflexivity.
Qed.

(** ** Reads inside one block *)

Lemma Ok_inj {A} (a b : A) : Ok a = Ok b -> a = b.
Proof. intros H. injection H as H. exact H. Qed.

Lemma slice_read files path f buf len abs_offset bb :
  lookup files (skip_slash path) = Some f -> size f < 2 ^ 64 ->
  0 <= abs_offset -> 0 <= len -> abs_offset + len <= size f ->
  abs_offset mod BLOCK_SIZE + len <= BLOCK_SIZE ->
  len <= Z.of_nat (length buf) ->
  BLOCK_SIZE <= Z.of_nat (length bb) ->
  fop_read files path buf len abs_offset bb
  = Ok (len,
        firstn (Z.to_nat len)
          (skipn (Z.to_nat (abs_offset mod BLOCK_SIZE))
             (generate_block ((abs_offset / BLOCK_SIZE) mod 2 ^ 32) (seed f)))
        ++ skipn (Z.to_nat len) buf).
Proof.
  intros Hl Hf Ho Hlen Hin Hblk Hbuf Hbb.
  pose proof (Z.mod_pos_bound abs_offset BLOCK_SIZE ltac:(reflexivity)) as Hm.
  assert (Hc : clamped_length (size f) abs_offset len = len).
  { unfold clamped_length.
    destruct (Z.gtb_spec (abs_offset + len) (size f)); lia. }
  rewrite (fop_read_spec files path f);
    try first [assumption | lia | rewrite Hc; lia].
  cbv zeta. rewrite Hc.
  rewrite to_int_small by (change BLOCK_SIZE with 65536 in *; lia).
  rewrite (generate_block_eq ((abs_offset / BLOCK_SIZE) mod 2 ^ 32)).
  fold (to_u32 (abs_offset / BLOCK_SIZE)).
  rewrite (to_u32_small (to_u32 (abs_offset / BLOCK_SIZE)))
    by apply to_u32_range.
  rewrite (offset_split abs_offset) at 1.
  rewrite bytes_from_block by lia.
  reflexivity.
Qed.

(** * Main theorems *)

(** ** C1: reads agree with the block generator *)

(** C1.  For every file that [main] registered and every request inside
    the file (into a buffer with room for it), [fop_read] leaves in the
    buffer exactly the bytes obtained by generating the covering blocks
    with [get_block] and slicing their concatenation at
    [[abs_offset, abs_offset + len)]; the rest of the buffer is untouched.
    The block index is an [uint32_t], so beyond 2^48 bytes the covering
    blocks are those [get_block] makes of the indices cut to 32 bits.
    The instance of the claim (seed 1, [[65530, 65542)]) follows the
    theorem. *)
Theorem read_generate_consistency files path f buf len abs_offset bb :
  registered files ->
  lookup files (skip_slash path) = Some f ->
  0 <= abs_offset -> 0 <= len -> abs_offset + len <= size f ->
  len <= Z.of_nat (length buf) ->
  Z.of_nat (length bb) = BLOCK_SIZE ->
  fop_read files path buf len abs_offset bb
  = Ok (to_int len,
        slice_of_blocks (seed f) abs_offset len ++ skipn (Z.to_nat len) buf).
Proof.
  intros Hreg Hl Ho Hlen Hin Hbuf Hbb.
  destruct (registered_wf files _ f Hreg Hl) as [Hsz _].
  assert (Hc : clamped_length (size f) abs_offset len = len).
  { unfold clamped_length. destruct (Z.gtb_spec (abs_offset + len) (size f)); lia. }
  rewrite (fop_read_spec files path f); try assumption; try lia.
  cbv zeta. rewrite Hc, slice_of_blocks_eq by assumption. reflexivity.
Qed.

(** With seed 1, reading [[65530, 65542)] gives the last 6 bytes of block
    0 followed by the first 6 bytes of block 1. *)
Lemma read_generate_consistency_witness :
  fop_read testfile_1M "/testfile_1M" (repeat Byte.x00 12) 12 65530
    (repeat Byte.xff (Z.to_nat BLOCK_SIZE))
  = Ok (12, skipn (Z.to_nat 65530) (generate_block 0 1)
            ++ firstn 6 (generate_block 1 1)).
Proof.
  rewrite (read_generate_consistency testfile_1M "/testfile_1M"
             {| name := "testfile_1M"; size := 1048576; seed := 1 |}).
  - unfold slice_of_blocks, covering_blocks. cbn [seed].
    change (65530 / BLOCK_SIZE) with 0.
    change (65530 mod BLOCK_SIZE) with 65530.
    change (Z.to_nat ((65530 + 12 + BLOCK_SIZE - 1) / BLOCK_SIZE)) with 2%nat.
    cbn [Zseq map concat Z.add Pos.add].
    rewrite app_nil_r, skipn_app, firstn_app, !length_skipn, !generate_block_length.
    change (Z.to_nat 65530 - Z.to_nat BLOCK_SIZE)%nat with 0%nat.
    change (Z.to_nat 12 - (Z.to_nat BLOCK_SIZE - Z.to_nat 65530))%nat with 6%nat.
    rewrite firstn_all2
      by (rewrite length_skipn, generate_block_length;
          change BLOCK_SIZE with 65536; lia).
    rewrite skipn_O, app_nil_r. reflexivity.
  - exact testfile_1M_registered.
  - reflexivity.
  - lia.
  - lia.
  - cbn [size]. lia.
  - rewrite repeat_length. lia.
  - rewrite repeat_length. change BLOCK_SIZE with 65536. lia.
Defined.

(** ** C2: determinism *)

(** C2.  [get_block] is deterministic: whatever the block-sized buffer it
    is given holds before, two calls for the same block and seed leave the
    same bytes in it.  Consequently two identical read requests on a
    registered file, into whatever buffers and with whatever the stack
    holds, return the same value and store the same bytes, and leave the
    rest of their buffers as it was. *)
Theorem generation_deterministic files path f len abs_offset buf1 buf2 bb1 bb2 :
  registered files ->
  lookup files (skip_slash path) = Some f ->
  0 <= abs_offset <= size f -> 0 <= len -> abs_offset + len < 2 ^ 64 ->
  len <= Z.of_nat (length buf1) -> len <= Z.of_nat (length buf2) ->
  Z.of_nat (length bb1) = BLOCK_SIZE -> Z.of_nat (length bb2) = BLOCK_SIZE ->
  (forall block file_seed, exists data,
      get_block block bb1 file_seed = Ok data
      /\ get_block block bb2 file_seed = Ok data)
  /\ (exists ret data,
        fop_read files path buf1 len abs_offset bb1
        = Ok (ret, data ++ skipn (length data) buf1)
        /\ fop_read files path buf2 len abs_offset bb2
           = Ok (ret, data ++ skipn (length data) buf2)).
Proof.
  intros Hreg Hl Ho Hlen Hw Hb1 Hb2 Hbb1 Hbb2. split.
  - intros block file_seed. exists (block_data (to_u32 block) file_seed).
    rewrite !get_block_spec by lia.
    rewrite !skipn_all2, app_nil_r by lia. split; reflexivity.
  - destruct (registered_wf files _ f Hreg Hl) as [Hsz _].
    pose proof (clamped_length_bounds (size f) abs_offset len Ho Hlen) as [Hn _].
    set (n := clamped_length (size f) abs_offset len) in *.
    exists (to_int n), (bytes_from (seed f) (Z.to_nat n) abs_offset).
    rewrite bytes_from_length.
    rewrite !(fop_read_spec files path f); try assumption; try lia.
    split; reflexivity.
Qed.

Lemma generation_deterministic_witness :
  exists ret data,
    fop_read testfile_1M "/testfile_1M" (repeat Byte.x00 12) 12 65530
      (repeat Byte.x00 (Z.to_nat BLOCK_SIZE))
    = Ok (ret, data ++ skipn (length data) (repeat Byte.x00 12))
    /\ fop_read testfile_1M "/testfile_1M" (repeat Byte.xff 20) 12 65530
         (repeat Byte.xff (Z.to_nat BLOCK_SIZE))
       = Ok (ret, data ++ skipn (length data) (repeat Byte.xff 20)).
Proof.
  refine (proj2 (generation_deterministic testfile_1M "/testfile_1M"
             {| name := "testfile_1M"; size := 1048576; seed := 1 |}
             12 65530 (repeat Byte.x00 12) (repeat Byte.xff 20)
             (repeat Byte.x00 (Z.to_nat BLOCK_SIZE))
             (repeat Byte.xff (Z.to_nat BLOCK_SIZE)) _ _ _ _ _ _ _ _ _)).
  - exact testfile_1M_registered.
  - reflexivity.
  - cbn [size]. lia.
  - lia.
  - lia.
  - rewrite repeat_length. lia.
  - rewrite repeat_length. lia.
  - rewrite repeat_length. change BLOCK_SIZE with 65536. lia.
  - rewrite repeat_length. change BLOCK_SIZE with 65536. lia.
Defined.

(** ** C3: requests at or past the end of the file *)

(** C3, at the failing input.  On the file [f,100,1] a request for 10
    bytes at offset 105 does not return zero bytes: [size] becomes
    [100 - 105] as a [size_t], that is 2^64 - 5, and the first pass of the
    loop copies 65431 bytes into the 10-byte buffer. *)
Theorem read_past_end_overruns :
  main_files [{| spec_name := "f"; size_value := 100; size_end := zero;
                 seed_value := 1; seed_end := zero |}] = Some file_100
  /\ fop_read file_100 "/f" (repeat Byte.x00 10) 10 105
       (repeat Byte.x00 (Z.to_nat BLOCK_SIZE)) = Fault.
Proof.
  split; [reflexivity|].
  rewrite (fop_read_found _ _ {| name := "f"; size := 100; seed := 1 |})
    by reflexivity.
  cbv zeta. cbn [size seed].
  change (if to_u64 (to_u64 105 + 10) >? 100 then to_u64 (100 - 105) else 10)
    with 18446744073709551611.
  replace (Z.to_nat 18446744073709551611)
    with (S (Z.to_nat 18446744073709551610)) by lia.
  rewrite read_loop_unfold.
  change (18446744073709551611 =? 0) with false. cbv iota.
  assert (E : read_pass 1 (repeat Byte.x00 10) 18446744073709551611 105
                (repeat Byte.x00 (Z.to_nat BLOCK_SIZE)) = Fault).
  { unfold read_pass. cbv zeta.
    change (to_u32 (Z.land 105 OFFSET_MASK)) with 105.
    change ((105 =? 0) && (BLOCK_SIZE <=? 18446744073709551611)) with false.
    cbv iota. rewrite get_block_spec
      by (rewrite repeat_length; change BLOCK_SIZE with 65536; lia).
    cbn [bind]. unfold memcpy.
    change (to_u64 (if 18446744073709551611 <? to_u32 (BLOCK_SIZE - 105)
                    then to_int 18446744073709551611
                    else to_int (to_u32 (BLOCK_SIZE - 105)))) with 65431.
    rewrite repeat_length.
    change (65431 <=? Z.of_nat 10) with false.
    rewrite andb_false_r. reflexivity. }
  rewrite E. reflexivity.
Qed.

(** ** C4: clamping and the value returned *)

(** C4 as stated fails: on the file [big,4G,1] a request for 2^31 bytes at
    offset 0 lies inside the file, so its clamped length is 2^31, but the
    value returned is [orig_size] converted to [int], that is -2^31. *)
Lemma read_returns_negative_length :
  main_files [{| spec_name := "big"; size_value := 4; size_end := "G";
                 seed_value := 1; seed_end := zero |}] = Some file_4G
  /\ returned (fop_read file_4G "/big" (repeat Byte.x00 (Z.to_nat 2147483648))
                 2147483648 0 (repeat Byte.x00 (Z.to_nat BLOCK_SIZE)))
     = Some (-2147483648)
  /\ clamped_length 4294967296 0 2147483648 = 2147483648.
Proof.
  split; [reflexivity|]. split; [|reflexivity].
  rewrite (fop_read_spec file_4G "/big"
             {| name := "big"; size := 4294967296; seed := 1 |}).
  - reflexivity.
  - reflexivity.
  - reflexivity.
  - cbn [size]. lia.
  - lia.
  - lia.
  - cbn [size]. change (clamped_length 4294967296 0 2147483648) with 2147483648.
    rewrite repeat_length. lia.
  - rewrite repeat_length. change BLOCK_SIZE with 65536. lia.
Qed.

(** C4, amended.  For every read request on a registered file with
    [0 <= abs_offset < size], whose [abs_offset + len] does not wrap
    around 2^64 and whose clamped length fits the [int] that [fop_read]
    returns: the length is reduced to [size - abs_offset] when
    [abs_offset + len] exceeds the size and kept otherwise; the value
    returned is exactly that clamped length, so it is never negative;
    exactly that many bytes are stored; and the read is short only when it
    ends at the end of the file. *)
Theorem read_clamps_to_file_size files path f buf len abs_offset bb :
  registered files ->
  lookup files (skip_slash path) = Some f ->
  0 <= abs_offset < size f -> 0 <= len -> abs_offset + len < 2 ^ 64 ->
  Z.min len (size f - abs_offset) < 2 ^ 31 ->
  len <= Z.of_nat (length buf) ->
  Z.of_nat (length bb) = BLOCK_SIZE ->
  let n := clamped_length (size f) abs_offset len in
  n = Z.min len (size f - abs_offset)
  /\ 0 <= n
  /\ (n < len -> abs_offset + n = size f)
  /\ exists data,
       Z.of_nat (length data) = n
       /\ fop_read files path buf len abs_offset bb
          = Ok (n, data ++ skipn (Z.to_nat n) buf).
Proof.
  intros Hreg Hl Ho Hlen Hw Hint Hbuf Hbb n.
  destruct (registered_wf files _ f Hreg Hl) as [Hsz _].
  assert (Hn : n = Z.min len (size f - abs_offset)).
  { subst n. unfold clamped_length.
    destruct (Z.gtb_spec (abs_offset + len) (size f)); lia. }
  repeat split; try lia.
  exists (bytes_from (seed f) (Z.to_nat n) abs_offset). split.
  - rewrite bytes_from_length. lia.
  - rewrite (fop_read_spec files path f); try assumption; try lia.
    cbv zeta. fold n. rewrite to_int_small by lia. reflexivity.
Qed.

(** The last 6 bytes of [testfile_1M], asked for as 10. *)
Lemma read_clamps_to_file_size_witness :
  exists data,
    Z.of_nat (length data) = 6
    /\ fop_read testfile_1M "/testfile_1M" (repeat Byte.x00 10) 10 1048570
         (repeat Byte.x00 (Z.to_nat BLOCK_SIZE))
       = Ok (6, data ++ skipn 6 (repeat Byte.x00 10)).
Proof.
  refine (proj2 (proj2 (proj2 (read_clamps_to_file_size testfile_1M "/testfile_1M"
             {| name := "testfile_1M"; size := 1048576; seed := 1 |}
             (repeat Byte.x00 10) 10 1048570
             (repeat Byte.x00 (Z.to_nat BLOCK_SIZE)) _ _ _ _ _ _ _ _)))).
  - exact testfile_1M_registered.
  - reflexivity.
  - cbn [size]. lia.
  - lia.
  - lia.
  - cbn [size]. lia.
  - rewrite repeat_length. lia.
  - rewrite repeat_length. change BLOCK_SIZE with 65536. lia.
Defined.

(** ** C5: when the block index enters the dividend *)

(** C5 as stated fails: were the block index fed in only in passes 64..95,
    the state after the first 64 passes would not depend on it.  With the
    global seed and file seed 1 it does: blocks 0 and 1 give different
    states. *)
Lemma crc_block_enters_before_final_third :
  crc_loop 64 0 0 (123456789, 1) <> crc_loop 64 1 0 (123456789, 1).
Proof. vm_compute. discriminate. Qed.

(** C5, amended.  In the 96 passes of the loop of [crc] the block index is
    read in pass 32 only, the first pass of the middle third: every other
    pass does the same whatever the block; pass 32 puts the block in
    [input_next] in place of what is there and then does what every pass
    does; the first 32 passes do not depend on the block at all; and after
    pass 63 [input_next] is 0, so the final third shifts in zero bits and
    refills nothing. *)
Theorem crc_block_fed_at_pass_32 :
  (forall block block' i st,
      i <> 32 -> crc_body block i st = crc_body block' i st)
  /\ (forall block input input_next,
         crc_body block 32 (input, input_next) = crc_body block 0 (input, block))
  /\ (forall global_seed file_seed block block' n,
         (n <= 32)%nat ->
         crc_loop n block 0 (global_seed, file_seed)
         = crc_loop n block' 0 (global_seed, file_seed))
  /\ (forall global_seed file_seed block,
         snd (crc_loop 64 block 0 (global_seed, file_seed)) = 0).
Proof.
  split; [|split; [|split]].
  - intros block block' i st Hi. rewrite !crc_body_other by assumption. reflexivity.
  - intros block input input_next.
    rewrite crc_body_refill, crc_body_other by lia. reflexivity.
  - intros g f block block' n Hn.
    rewrite !crc_loop_no_refill by lia. reflexivity.
  - intros g f block. change 64%nat with (32 + (1 + 31))%nat.
    rewrite !crc_loop_split. rewrite (crc_loop_no_refill 32) by lia.
    destruct (crc_passes 32 (g, f)) as [c n].
    change (crc_loop 1 block (0 + Z.of_nat 32) (c, n))
      with (crc_body block 32 (c, n)).
    rewrite crc_body_refill.
    pose proof (crc_pass_next c block) as Hs.
    destruct (crc_pass (c, block)) as [a1 n1]. cbn [snd] in Hs. subst n1.
    rewrite crc_loop_next by (cbn; lia).
    unfold to_u32. rewrite Z.shiftl_mul_pow2 by (cbn; lia).
    change (2 ^ (1 + Z.of_nat 31)) with (2 ^ 32). apply Z.mod_mul. lia.
Qed.

(** ** C6: the block is the xorshift stream *)

(** C6.  A block that [get_block] writes is the little-endian bytes of
    the first [BLOCK_SIZE / 4] words of the xorshift generator started in
    state [(x, 362436069, 521288629, 88675123)], [x] being the result of
    [crc] on the global seed, the file seed and the block; each step is
    [xorshift_step] ([t = a xor (a << 11)], rotate,
    [d = d xor (d >> 19) xor (t xor (t >> 8))]) and emits the new [d]; all
    words stay below 2^32 and are the words their four bytes decode to. *)
Theorem get_block_is_xorshift_stream block buf file_seed :
  BLOCK_SIZE <= Z.of_nat (length buf) ->
  let x := crc 123456789 file_seed (to_u32 block) in
  let words :=
    xorshift_words (Z.to_nat (BLOCK_SIZE / 4))
      (x, 362436069, 521288629, 88675123) in
  get_block block buf file_seed
  = Ok (flat_map (le_split 4) words ++ skipn (Z.to_nat BLOCK_SIZE) buf)
  /\ Z.of_nat (length words) = BLOCK_SIZE / 4
  /\ Z.of_nat (length (flat_map (le_split 4) words)) = BLOCK_SIZE
  /\ Forall (fun w => 0 <= w < 2 ^ 32 /\ le_combine (le_split 4 w) = w) words.
Proof.
  intros Hbuf x words.
  split; [|split; [|split]].
  - rewrite get_block_spec, block_data_unfold by assumption. reflexivity.
  - subst words. rewrite xorshift_words_length.
    change (BLOCK_SIZE / 4) with 16384. lia.
  - rewrite <- (block_data_length (to_u32 block) file_seed).
    rewrite block_data_unfold. reflexivity.
  - assert (H : Forall in_u32 words).
    { apply xorshift_words_range; try (unfold in_u32; lia). apply crc_range. }
    eapply Forall_impl; [|exact H].
    intros w Hw. split; [exact Hw|apply le_combine_split4, Hw].
Qed.

Lemma get_block_is_xorshift_stream_witness :
  get_block 0 (repeat Byte.x00 (Z.to_nat BLOCK_SIZE)) 1
  = Ok (flat_map (le_split 4)
          (xorshift_words (Z.to_nat (BLOCK_SIZE / 4))
             (crc 123456789 1 (to_u32 0), 362436069, 521288629, 88675123))
        ++ skipn (Z.to_nat BLOCK_SIZE) (repeat Byte.x00 (Z.to_nat BLOCK_SIZE))).
Proof.
  refine (proj1 (get_block_is_xorshift_stream 0
             (repeat Byte.x00 (Z.to_nat BLOCK_SIZE)) 1 _)).
  rewrite repeat_length. change BLOCK_SIZE with 65536. lia.
Defined.

(** ** C7: sizes beyond the block-index space *)

(** C7 as stated fails: [main] accepts the specification [big,1048576G,1],
    a file of 2^50 bytes, and for the offset 2^48 of that file [fop_read]
    computes block index 0, not 2^32. *)
Lemma oversized_file_is_registered :
  main_files
    [{| spec_name := "big"; size_value := 1048576; size_end := "G";
        seed_value := 1; seed_end := zero |}]
  = Some [{| name := "big"; size := 2 ^ 50; seed := 1 |}]
  /\ to_u32 (Z.shiftr (2 ^ 48) BLOCK_SHIFT) = 0
  /\ to_u32 (Z.shiftr (2 ^ 48) BLOCK_SHIFT) <> 2 ^ 48 / BLOCK_SIZE.
Proof. split; [reflexivity|split; [reflexivity|discriminate]]. Qed.

(** C7, amended.  Registration never rejects a size for being large.
    [main] exits with "invalid size" exactly when the first specification
    that it does not register has its three fields and a size of 0 (after
    scaling, modulo 2^64); on a command line whose specifications have
    their three fields and a valid seed, with memory available, it serves
    every specification exactly when no size is 0; and every size from 1
    to 2^64 - 1 can be written.  Reads cut the block index to 32 bits: a
    read inside block [abs_offset / BLOCK_SIZE] of a file delivers the
    bytes of the block that [get_block] makes for that index modulo 2^32,
    and a read of the whole block [k] delivers the block of the 32-bit
    index [j] exactly when [j] is [k] modulo 2^32.  So the index is exact
    for offsets below 2^48, and is the true index modulo 2^32 in
    general. *)
Theorem registration_rejects_only_zero :
  (forall argc inputs,
      main argc inputs = Exit Invalid_size <->
      2 <= argc
      /\ exists before p after files nm sv se seedf,
           inputs = before ++ p :: after
           /\ main_loop [] before = inl files
           /\ fields p = {| name_field := Some nm; size_field := Some (sv, se);
                            seed_field := Some seedf |}
           /\ parse_size sv se = 0)
  /\ (forall argc specs,
         2 <= argc -> specs <> [] ->
         Forall (fun fs => to_u32 (seed_value fs) <> 0 /\ seed_end fs = zero)
           specs ->
         (main argc (map complete specs) = Serve (rev (map file_of_spec specs))
          <-> Forall (fun fs => parse_size (size_value fs) (size_end fs) <> 0)
                specs))
  /\ (forall v, 0 <= v < 2 ^ 64 -> parse_size v zero = v)
  /\ (forall files path f buf len abs_offset bb,
         lookup files (skip_slash path) = Some f -> size f < 2 ^ 64 ->
         0 <= abs_offset -> 0 <= len -> abs_offset + len <= size f ->
         abs_offset mod BLOCK_SIZE + len <= BLOCK_SIZE ->
         len <= Z.of_nat (length buf) ->
         BLOCK_SIZE <= Z.of_nat (length bb) ->
         fop_read files path buf len abs_offset bb
         = Ok (len,
               firstn (Z.to_nat len)
                 (skipn (Z.to_nat (abs_offset mod BLOCK_SIZE))
                    (generate_block ((abs_offset / BLOCK_SIZE) mod 2 ^ 32)
                       (seed f)))
               ++ skipn (Z.to_nat len) buf))
  /\ (forall files path f buf k j bb,
         lookup files (skip_slash path) = Some f -> size f < 2 ^ 64 ->
         0 <= k -> (k + 1) * BLOCK_SIZE <= size f ->
         BLOCK_SIZE <= Z.of_nat (length buf) ->
         BLOCK_SIZE <= Z.of_nat (length bb) ->
         0 <= j < 2 ^ 32 ->
         (fop_read files path buf BLOCK_SIZE (k * BLOCK_SIZE) bb
          = Ok (BLOCK_SIZE,
                generate_block j (seed f) ++ skipn (Z.to_nat BLOCK_SIZE) buf)
          <-> j = k mod 2 ^ 32)).
Proof.
  split; [|split; [|split; [|split]]].
  - intros argc inputs. rewrite main_exit. split.
    + intros [[_ E]|(Hargc & _ & [Hl|[_ E]])]; try discriminate.
      split; [exact Hargc|].
      apply main_loop_inr in Hl.
      destruct Hl as (before & p & after & files & E & Hb & Hp).
      apply main_pass_invalid_size in Hp.
      destruct Hp as (nm & sv & se & seedf & Hf & Hs).
      exists before, p, after, files, nm, sv, se, seedf. auto.
    + intros (Hargc & before & p & after & files & nm & sv & se & seedf
              & E & Hb & Hf & Hs).
      right. split; [exact Hargc|]. split.
      * rewrite E. intros E'. apply app_eq_nil in E'. destruct E'; discriminate.
      * left. apply main_loop_inr. exists before, p, after, files.
        split; [exact E|]. split; [exact Hb|].
        apply main_pass_invalid_size. exists nm, sv, se, seedf. auto.
  - intros argc specs Hargc Hne Hseed. rewrite main_serve by exact Hargc.
    assert (Hne' : map complete specs <> []).
    { destruct specs; [contradiction|discriminate]. }
    assert (Hne'' : rev (map file_of_spec specs) <> []).
    { destruct specs; [contradiction|]. cbn [map rev].
      intros E. apply app_eq_nil in E. destruct E; discriminate. }
    pose proof (main_loop_complete_sizes specs [] Hseed) as Hiff.
    rewrite app_nil_r in Hiff. tauto.
  - intros v Hv. unfold parse_size. cbn. apply to_u64_small. exact Hv.
  - intros files path f buf len abs_offset bb Hl Hf Ho Hlen Hin Hblk Hbuf Hbb.
    apply slice_read; assumption.
  - intros files path f buf k j bb Hl Hf Hk Hin Hbuf Hbb Hj.
    assert (Hpos : 0 < BLOCK_SIZE) by reflexivity.
    rewrite (slice_read files path f buf BLOCK_SIZE (k * BLOCK_SIZE) bb);
      try first [assumption | lia | nia].
    2:{ rewrite Z.mod_mul by discriminate. lia. }
    rewrite Z.mod_mul, Z.div_mul by discriminate.
    change (Z.to_nat 0) with 0%nat. rewrite skipn_O.
    rewrite (generate_block_eq j), (generate_block_eq (k mod 2 ^ 32)).
    fold (to_u32 k). rewrite (to_u32_small (to_u32 k)) by apply to_u32_range.
    rewrite (to_u32_small j) by exact Hj.
    rewrite firstn_all2
      by (pose proof (block_data_length (to_u32 k) (seed f)); lia).
    split.
    + intros E. apply Ok_inj in E. apply pair_equal_spec in E.
      destruct E as [_ E]. apply app_inv_tail in E.
      destruct (Z.eq_dec j (to_u32 k)) as [H|H]; [exact H|].
      exfalso. revert E. apply not_eq_sym.
      apply block_data_inj; try assumption; try apply to_u32_range.
    + intros ->. reflexivity.
Qed.

(** ** C8: adjacent blocks differ *)

(** C8.  For every block index [i] and every seed [s], the blocks [i] and
    [i + 1] of a file differ (already in their first word): [crc] is
    one-to-one in the block number, and the first step of the xorshift
    generator is one-to-one in its first state word. *)
Theorem adjacent_blocks_differ i s :
  generate_block i s <> generate_block (i + 1) s.
Proof.
  rewrite (generate_block_eq i s), (generate_block_eq (i + 1) s).
  apply block_data_inj; try apply to_u32_range. apply to_u32_succ_ne.
Qed.

(** ** C9: the name does not matter *)

(** C9.  What [fop_read] returns and stores depends on the size and the
    seed of the file that the path names, never on the name: for two
    paths that name files of equal size and equal seed, every request
    gives the same result. *)
Theorem read_independent_of_name files path1 path2 f1 f2 buf len abs_offset bb :
  lookup files (skip_slash path1) = Some f1 ->
  lookup files (skip_slash path2) = Some f2 ->
  size f1 = size f2 -> seed f1 = seed f2 ->
  fop_read files path1 buf len abs_offset bb
  = fop_read files path2 buf len abs_offset bb.
Proof.
  intros H1 H2 Hsize Hseed.
  rewrite (fop_read_found _ _ f1), (fop_read_found _ _ f2) by assumption.
  rewrite Hsize, Hseed. reflexivity.
Qed.

Lemma read_independent_of_name_witness :
  fop_read twin_files "/a" (repeat Byte.x00 8) 8 96
    (repeat Byte.x00 (Z.to_nat BLOCK_SIZE))
  = fop_read twin_files "/b" (repeat Byte.x00 8) 8 96
      (repeat Byte.x00 (Z.to_nat BLOCK_SIZE)).
Proof.
  apply (read_independent_of_name twin_files "/a" "/b"
           {| name := "a"; size := 100; seed := 7 |}
           {| name := "b"; size := 100; seed := 7 |});
    reflexivity.
Defined.

(** ** C10: the read loop terminates *)

(** C10.  The loop of [fop_read] terminates on every request.  While
    [size] is not 0, a pass that completes handles [n] bytes with
    [1 <= n <= size]: [BLOCK_SIZE] on the full-block path, and
    [min size (BLOCK_SIZE - offset)] on the partial path, where
    [offset < BLOCK_SIZE].  So [size] passes are always enough: with that
    budget the loop never runs out of passes, and [fop_read], which gives
    it that budget, always comes to an end. *)
Theorem read_loop_terminates files path file_seed buf size abs_offset bb :
  0 <= size < 2 ^ 64 ->
  (forall n buf' bb',
      size <> 0 ->
      read_pass file_seed buf size abs_offset bb = Ok (n, buf', bb') ->
      let offset := abs_offset mod BLOCK_SIZE in
      0 <= offset < BLOCK_SIZE
      /\ n = (if (offset =? 0) && (BLOCK_SIZE <=? size) then BLOCK_SIZE
              else Z.min size (BLOCK_SIZE - offset))
      /\ 1 <= n <= size)
  /\ (forall fuel, (Z.to_nat size <= fuel)%nat ->
        read_loop fuel file_seed buf size abs_offset bb <> Timeout)
  /\ fop_read files path buf size abs_offset bb <> Timeout.
Proof.
  intros Hs. split; [|split].
  - intros n buf' bb' Hnz Hp offset.
    apply read_pass_count in Hp; [|lia].
    pose proof (pass_length_bounds size abs_offset ltac:(lia)) as [Hn _].
    rewrite <- Hp in Hn. split; [|split; [exact Hp|exact Hn]].
    apply Z.mod_pos_bound. reflexivity.
  - intros fuel Hfuel. apply read_loop_no_timeout; assumption.
  - unfold fop_read. destruct (lookup files (skip_slash path)) as [[nm fsize fseed]|];
      [|discriminate].
    set (n := if to_u64 (to_u64 abs_offset + size) >? fsize
              then to_u64 (fsize - abs_offset) else size).
    assert (Hn : 0 <= n < 2 ^ 64).
    { subst n. destruct (_ >? _); [|exact Hs].
      unfold to_u64. apply Z.mod_pos_bound. lia. }
    pose proof (read_loop_no_timeout (Z.to_nat n) fseed buf n abs_offset bb Hn
                  (le_n _)) as Hl.
    destruct (read_loop (Z.to_nat n) fseed buf n abs_offset bb); cbn [bind];
      congruence.
Qed.

Lemma read_loop_terminates_witness :
  fop_read testfile_1M "/testfile_1M" (repeat Byte.x00 12) 12 65530
    (repeat Byte.x00 (Z.to_nat BLOCK_SIZE)) <> Timeout.
Proof.
  refine (proj2 (proj2 (read_loop_terminates testfile_1M "/testfile_1M" 1
             (repeat Byte.x00 12) 12 65530
             (repeat Byte.x00 (Z.to_nat BLOCK_SIZE)) _))).
  lia.
Defined.

(** * Further properties *)

(** ** Looking a path up *)

Lemma skip_slash_cons n : skip_slash (String "/" n) = n.
Proof. reflexivity. Qed.

Lemma lookup_some files path f :
  lookup files path = Some f -> In f files /\ name f = path.
Proof.
  intros H. apply find_some in H. destruct H as [Hin He].
  apply String.eqb_eq in He. auto.
Qed.

Lemma lookup_none files path :
  lookup files path = None -> forall f, In f files -> name f <> path.
Proof.
  intros H f Hin E. pose proof (find_none _ _ H f Hin) as Hn. cbv beta in Hn.
  rewrite E, String.eqb_refl in Hn. discriminate.
Qed.

Lemma lookup_name files n :
  In n (map name files) -> exists f, lookup files n = Some f.
Proof.
  intros Hin. destruct (lookup files n) as [f|] eqn:E; [eauto|].
  apply in_map_iff in Hin. destruct Hin as (f & Hn & Hf).
  exfalso. exact (lookup_none files n E f Hf Hn).
Qed.

Lemma fop_getattr_file files path st :
  path <> "/"%string ->
  fop_getattr files path st
  = match lookup files (skip_slash path) with
    | Some f => (0, file_stat (size f))
    | None => (- ENOENT, memset_stat st)
    end.
Proof.
  intros Hp. unfold fop_getattr. cbv zeta.
  destruct (String.eqb_spec path "/") as [E|_]; [contradiction|].
  destruct (lookup files (skip_slash path)); reflexivity.
Qed.

(** X1.  [fop_getattr] has three answers, and none depends on what the
    stat buffer held before the call.  For the path "/" it returns 0 and
    reports a directory of mode 0755 with two links.  For any other path
    it drops one leading slash and, when a registered file has that name,
    returns 0 and reports a regular file of mode 0444 with one link and
    that file's size; when no registered file has that name it returns
    -ENOENT and leaves the buffer zeroed. *)
Theorem getattr_classifies files path st :
  let r := fop_getattr files path st in
  (path = "/"%string /\ r = (0, root_stat))
  \/ (path <> "/"%string
      /\ exists f, In f files /\ name f = skip_slash path
                   /\ r = (0, file_stat (size f)))
  \/ (path <> "/"%string
      /\ (forall f, In f files -> name f <> skip_slash path)
      /\ r = (- ENOENT, {| st_mode := 0; st_nlink := 0; st_size := 0 |})).
Proof.
  intros r. subst r.
  destruct (String.eqb_spec path "/") as [E|Hp].
  - left. subst path. split; reflexivity.
  - right. rewrite fop_getattr_file by assumption.
    destruct (lookup files (skip_slash path)) as [f|] eqn:El.
    + left. split; [assumption|]. exists f.
      apply lookup_some in El. destruct El. auto.
    + right. split; [assumption|]. split; [|reflexivity].
      apply lookup_none. assumption.
Qed.

Lemma fold_record files : forall buf,
  fold_left (fun buf testfile => fst (record_name buf (name testfile) None 0))
    files buf
  = buf ++ map name files.
Proof.
  induction files as [|f files IH]; intros buf.
  - cbn. symmetry. apply app_nil_r.
  - cbn [fold_left map]. rewrite IH. unfold record_name. cbn [fst].
    rewrite <- app_assoc. reflexivity.
Qed.

(** X2.  [fop_readdir] of "/" returns 0 after handing the filler ".",
    ".." and then the name of every registered file, in the order of the
    list.  Every name it lists can be given back as "/name": [fop_getattr]
    returns 0 for it and [fop_open] opens it for reading.  For every other
    path [fop_readdir] returns -ENOENT and never calls the filler. *)
Theorem readdir_lists_the_files files buf offset :
  fop_readdir files "/" buf record_name offset
  = (0, buf ++ ["."; ".."]%string ++ map name files)
  /\ (forall n st,
        In n (map name files) ->
        fst (fop_getattr files (String "/" n) st) = 0
        /\ fop_open files (String "/" n) O_RDONLY = 0)
  /\ (forall {B} path (b : B) (filler : fuse_fill_dir_t B),
        path <> "/"%string ->
        fop_readdir files path b filler offset = (- ENOENT, b)).
Proof.
  split; [|split].
  - unfold fop_readdir. cbn [String.eqb Ascii.eqb Bool.eqb negb].
    rewrite fold_record. unfold record_name. cbn [fst].
    rewrite <- !app_assoc. reflexivity.
  - intros n st Hin. destruct (lookup_name files n Hin) as [f Hf]. split.
    + destruct (String.eqb_spec (String "/" n) "/") as [E|Hp].
      * rewrite E. reflexivity.
      * rewrite fop_getattr_file, skip_slash_cons, Hf by assumption. reflexivity.
    + unfold fop_open. cbv zeta. rewrite skip_slash_cons, Hf. reflexivity.
  - intros B path b filler Hp. unfold fop_readdir.
    destruct (String.eqb_spec path "/") as [E|_]; [contradiction|]. reflexivity.
Qed.

(** ** The operations agree on what exists *)

(** X3.  For a path other than "/", [fop_getattr] and [fop_open] agree
    on whether the file exists: one returns -ENOENT exactly when the
    other does.  Then [fop_read] returns -ENOENT too, the stat buffer is
    zeroed and the read buffer is untouched.  When the file exists
    [fop_getattr] returns 0 and [fop_open] returns 0 or -EACCES. *)
Theorem operations_agree_on_missing_paths files path st flags buf len abs_offset bb :
  path <> "/"%string ->
  (fst (fop_getattr files path st) = - ENOENT
   <-> fop_open files path flags = - ENOENT)
  /\ (fop_open files path flags = - ENOENT ->
      fop_getattr files path st
      = (- ENOENT, {| st_mode := 0; st_nlink := 0; st_size := 0 |})
      /\ fop_read files path buf len abs_offset bb = Ok (- ENOENT, buf))
  /\ (fop_open files path flags <> - ENOENT ->
      fst (fop_getattr files path st) = 0
      /\ (fop_open files path flags = 0 \/ fop_open files path flags = - EACCES)).
Proof.
  intros Hp. rewrite fop_getattr_file by assumption.
  unfold fop_open, fop_read. cbv zeta.
  destruct (lookup files (skip_slash path)) as [[nm fsize fseed]|]; cbn [fst].
  - destruct (negb (Z.land flags 3 =? O_RDONLY)).
    + split; [split; discriminate|]. split; [discriminate|].
      intros _. split; [reflexivity|right; reflexivity].
    + split; [split; discriminate|]. split; [discriminate|].
      intros _. split; [reflexivity|left; reflexivity].
  - split; [split; reflexivity|]. split; [intros _; split; reflexivity|].
    intros H. contradiction.
Qed.

Lemma operations_agree_on_missing_paths_witness :
  fop_getattr testfile_1M "/nothing" root_stat
  = (- ENOENT, {| st_mode := 0; st_nlink := 0; st_size := 0 |})
  /\ fop_read testfile_1M "/nothing" [] 10 0 [] = Ok (- ENOENT, []).
Proof.
  refine (proj1 (proj2 (operations_agree_on_missing_paths testfile_1M "/nothing"
             root_stat 0 [] 10 0 [] _)) _).
  - discriminate.
  - reflexivity.
Defined.

(** ** Opening *)

(** X4.  [fop_open] looks at the two low bits of the flags only (the
    access mode).  It returns 0 exactly when a registered file has the
    name that the path gives once one leading slash is dropped and the
    access mode is O_RDONLY; it returns -EACCES exactly when such a file
    is registered and the access mode is another one (writing, or reading
    and writing), whatever the other flags are; and it returns -ENOENT
    exactly when no registered file has that name. *)
Theorem open_allows_reading_only files path flags :
  fop_open files path flags = fop_open files path (Z.land flags 3)
  /\ (fop_open files path flags = 0
      <-> (exists f, In f files /\ name f = skip_slash path)
          /\ Z.land flags 3 = O_RDONLY)
  /\ (fop_open files path flags = - EACCES
      <-> (exists f, In f files /\ name f = skip_slash path)
          /\ Z.land flags 3 <> O_RDONLY)
  /\ (fop_open files path flags = - ENOENT
      <-> forall f, In f files -> name f <> skip_slash path).
Proof.
  unfold fop_open. cbv zeta.
  assert (H3 : Z.land (Z.land flags 3) 3 = Z.land flags 3).
  { rewrite <- Z.land_assoc. reflexivity. }
  rewrite H3. unfold O_RDONLY, EACCES, ENOENT.
  destruct (lookup files (skip_slash path)) as [f|] eqn:Hl.
  - apply lookup_some in Hl.
    assert (Hex : exists f, In f files /\ name f = skip_slash path)
      by (exists f; exact Hl).
    assert (Hno : ~ (forall f, In f files -> name f <> skip_slash path)).
    { intros H. destruct Hl as [Hin Hn]. exact (H f Hin Hn). }
    destruct (Z.eqb_spec (Z.land flags 3) 0) as [E|E]; cbn [negb].
    + split; [reflexivity|]. split; [tauto|]. split.
      * split; [discriminate|]. intros [_ H]. contradiction.
      * split; [discriminate|]. intros H. contradiction.
    + split; [reflexivity|]. split.
      * split; [discriminate|]. intros [_ H]. contradiction.
      * split; [tauto|]. split; [discriminate|]. intros H. contradiction.
  - pose proof (lookup_none _ _ Hl) as Hnone.
    assert (Hno : ~ (exists f, In f files /\ name f = skip_slash path)).
    { intros (f & Hin & Hn). exact (Hnone f Hin Hn). }
    split; [reflexivity|]. split.
    + split; [discriminate|]. intros [H _]. contradiction.
    + split.
      * split; [discriminate|]. intros [H _]. contradiction.
      * split; [intros _; exact Hnone|reflexivity].
Qed.

(** ** Sizes: what [fop_getattr] reports is what [fop_read] delivers *)

(** X5.  The size [fop_getattr] reports is the size [fop_read] serves:
    when [fop_getattr] succeeds on a path, a read of [len] bytes (below
    2^31) at an offset up to the reported size returns the smaller of
    [len] and the number of bytes from the offset to the reported size. *)
Theorem read_delivers_the_reported_size files path st buf len abs_offset bb :
  registered files ->
  path <> "/"%string ->
  fst (fop_getattr files path st) = 0 ->
  let reported := st_size (snd (fop_getattr files path st)) in
  0 <= abs_offset <= reported -> 0 <= len < 2 ^ 31 ->
  len <= Z.of_nat (length buf) ->
  Z.of_nat (length bb) = BLOCK_SIZE ->
  returned (fop_read files path buf len abs_offset bb)
  = Some (Z.min len (reported - abs_offset)).
Proof.
  intros Hreg Hp Hret reported. subst reported.
  rewrite fop_getattr_file in * by assumption.
  destruct (lookup files (skip_slash path)) as [f|] eqn:Hl;
    [|cbn [fst] in Hret; discriminate].
  cbn [snd st_size file_stat]. intros Ho Hlen Hbuf Hbb.
  destruct (registered_wf files _ f Hreg Hl) as [Hsz _].
  assert (Hlt : size f < 2 ^ 63).
  { destruct (Z_lt_ge_dec (size f) (2 ^ 63)); [assumption|].
    exfalso. unfold to_off_t in Ho.
    replace (size f + 2 ^ 63) with (size f - 2 ^ 63 + 1 * 2 ^ 64) in Ho by lia.
    rewrite Z.mod_add in Ho by lia. rewrite Z.mod_small in Ho; lia. }
  assert (Hs : to_off_t (size f) = size f).
  { unfold to_off_t. rewrite Z.mod_small; lia. }
  rewrite Hs in *.
  assert (Hc : clamped_length (size f) abs_offset len
               = Z.min len (size f - abs_offset)).
  { unfold clamped_length.
    destruct (Z.gtb_spec (abs_offset + len) (size f)); lia. }
  rewrite (fop_read_spec files path f);
    try first [assumption | lia | rewrite Hc; lia].
  cbv zeta. cbn [returned]. rewrite Hc, to_int_small by lia. reflexivity.
Qed.

Lemma read_delivers_the_reported_size_witness :
  returned (fop_read testfile_1M "/testfile_1M" (repeat Byte.x00 10) 10 1048570
              (repeat Byte.x00 (Z.to_nat BLOCK_SIZE)))
  = Some 6.
Proof.
  refine (read_delivers_the_reported_size testfile_1M "/testfile_1M" root_stat
            (repeat Byte.x00 10) 10 1048570
            (repeat Byte.x00 (Z.to_nat BLOCK_SIZE)) _ _ _ _ _ _ _).
  - exact testfile_1M_registered.
  - discriminate.
  - reflexivity.
  - cbn. lia.
  - lia.
  - rewrite repeat_length. lia.
  - rewrite repeat_length. change BLOCK_SIZE with 65536. lia.
Defined.

(** ** Registration *)

Lemma register_some files fs files' :
  register files fs = Some files' <->
  register [] fs <> None /\ files' = file_of_spec fs :: files.
Proof.
  unfold register, file_of_spec. cbv zeta.
  destruct (parse_size (size_value fs) (size_end fs) =? 0).
  - split; [discriminate|]. intros [H _]. contradiction.
  - destruct (_ || _).
    + split; [discriminate|]. intros [H _]. contradiction.
    + split.
      * intros H. injection H as <-. split; [discriminate|reflexivity].
      * intros [_ ->]. reflexivity.
Qed.

Lemma register_all_some specs : forall files files',
  register_all files specs = Some files' <->
  Forall (fun fs => register [] fs <> None) specs
  /\ files' = rev (map file_of_spec specs) ++ files.
Proof.
  induction specs as [|fs specs IH]; intros files files'.
  - cbn [register_all map rev app]. split.
    + intros H. injection H as <-. split; [constructor|reflexivity].
    + intros [_ ->]. reflexivity.
  - cbn [register_all map rev].
    destruct (register files fs) as [files1|] eqn:E.
    + apply register_some in E. destruct E as [Hv ->].
      rewrite IH, <- app_assoc. cbn [app]. split.
      * intros [Hall ->]. split; [constructor; assumption|reflexivity].
      * intros [Hall ->]. inversion Hall; subst. split; [assumption|reflexivity].
    + split; [discriminate|]. intros [Hall _]. inversion Hall; subst.
      exfalso.
      assert (Hs : register files fs = Some (file_of_spec fs :: files)).
      { apply register_some. split; [assumption|reflexivity]. }
      congruence.
Qed.

(** X6.  When [main] accepts the command line it keeps one entry for
    each specification, in reverse order (every entry is linked in at the
    head of the list), so that [fop_readdir] lists the files from the one
    specified last to the one specified first. *)
Theorem registration_keeps_every_file_in_reverse_order specs files :
  main_files specs = Some files ->
  files = rev (map file_of_spec specs)
  /\ length files = length specs
  /\ forall buf offset,
       fop_readdir files "/" buf record_name offset
       = (0, buf ++ ["."; ".."]%string ++ rev (map spec_name specs)).
Proof.
  intros H.
  assert (Hall : register_all [] specs = Some files).
  { destruct specs; [discriminate|exact H]. }
  apply register_all_some in Hall. destruct Hall as [_ Hf].
  rewrite app_nil_r in Hf. split; [exact Hf|]. split.
  - rewrite Hf, length_rev, length_map. reflexivity.
  - intros buf offset. unfold fop_readdir.
    cbn [String.eqb Ascii.eqb Bool.eqb negb].
    rewrite fold_record. unfold record_name. cbn [fst].
    rewrite <- !app_assoc. cbn [app]. do 3 f_equal.
    rewrite Hf, <- map_rev, map_map, map_rev. reflexivity.
Qed.

Lemma registration_keeps_every_file_in_reverse_order_witness :
  twin_files = rev (map file_of_spec two_specs).
Proof.
  refine (proj1 (registration_keeps_every_file_in_reverse_order two_specs
                   twin_files _)).
  reflexivity.
Defined.

Lemma lookup_app_none l1 l2 path :
  (forall f, In f l1 -> name f <> path) ->
  lookup (l1 ++ l2) path = lookup l2 path.
Proof.
  unfold lookup. induction l1 as [|a l1 IH]; intros H; [reflexivity|].
  cbn [app find]. destruct (String.eqb_spec path (name a)) as [E|_].
  - exfalso. apply (H a (or_introl eq_refl)). symmetry. exact E.
  - apply IH. intros f Hf. apply H. right. exact Hf.
Qed.

(** X7.  When the command line specifies a name more than once, the
    last specification of that name is the one that is served, wherever
    it stands on the command line: for a specification that no later
    specification repeats the name of, the lookup of its name finds its
    entry (the list is in reverse order and the lookup stops at the first
    entry of that name), and [fop_getattr] reports its size. *)
Theorem last_specification_of_a_name_wins before fs after files st :
  main_files (before ++ fs :: after) = Some files ->
  (forall fs', In fs' after -> spec_name fs' <> spec_name fs) ->
  lookup files (spec_name fs) = Some (file_of_spec fs)
  /\ (spec_name fs <> ""%string ->
      fop_getattr files (String "/" (spec_name fs)) st
      = (0, file_stat (parse_size (size_value fs) (size_end fs)))).
Proof.
  intros H Hafter.
  assert (Hall : register_all [] (before ++ fs :: after) = Some files).
  { destruct (before ++ fs :: after); [discriminate|exact H]. }
  apply register_all_some in Hall. destruct Hall as [_ Hf].
  rewrite app_nil_r, map_app, rev_app_distr in Hf.
  cbn [map rev] in Hf. rewrite <- app_assoc in Hf. cbn [app] in Hf.
  assert (Hl : lookup files (spec_name fs) = Some (file_of_spec fs)).
  { subst files. rewrite lookup_app_none.
    - unfold lookup. cbn [find file_of_spec name].
      rewrite String.eqb_refl. reflexivity.
    - intros f Hin. apply in_rev, in_map_iff in Hin.
      destruct Hin as (fs' & <- & Hin). apply Hafter. exact Hin. }
  split; [exact Hl|]. intros Hne.
  rewrite fop_getattr_file.
  - rewrite skip_slash_cons, Hl. reflexivity.
  - intros E. injection E as E. contradiction.
Qed.

Lemma last_specification_of_a_name_wins_witness :
  lookup [{| name := "g"; size := 5; seed := 3 |};
          {| name := "f"; size := 2048; seed := 9 |};
          {| name := "f"; size := 1048576; seed := 1 |}] "f"
  = Some {| name := "f"; size := 2048; seed := 9 |}.
Proof.
  refine (proj1 (last_specification_of_a_name_wins
                   [{| spec_name := "f"; size_value := 1; size_end := "M";
                       seed_value := 1; seed_end := zero |}]
                   {| spec_name := "f"; size_value := 2; size_end := "k";
                      seed_value := 9; seed_end := zero |}
                   [{| spec_name := "g"; size_value := 5; size_end := zero;
                       seed_value := 3; seed_end := zero |}]
                   _ root_stat _ _)).
  - reflexivity.
  - intros fs' [<-|[]]. discriminate.
Defined.

Lemma register_none files fs :
  register files fs = None <-> register [] fs = None.
Proof.
  unfold register. cbv zeta.
  destruct (parse_size (size_value fs) (size_end fs) =? 0); [tauto|].
  destruct (_ || _); [tauto|]. split; discriminate.
Qed.

Lemma register_all_none specs : forall files,
  register_all files specs = None <->
  Exists (fun fs => register [] fs = None) specs.
Proof.
  induction specs as [|fs specs IH]; intros files.
  - cbn [register_all]. split; [discriminate|]. intros H. inversion H.
  - cbn [register_all]. destruct (register files fs) as [files1|] eqn:E.
    + rewrite IH. split.
      * intros H. apply Exists_cons_tl. exact H.
      * intros H. inversion H as [? ? Hb|? ? Ht]; subst; [|exact Ht].
        apply (register_none files) in Hb. congruence.
    + split; [|reflexivity]. intros _. apply Exists_cons_hd.
      apply (register_none files). exact E.
Qed.

Lemma register_none_iff fs :
  register [] fs = None <->
  parse_size (size_value fs) (size_end fs) = 0
  \/ to_u32 (seed_value fs) = 0
  \/ seed_end fs <> zero.
Proof.
  unfold register. cbv zeta.
  destruct (Z.eqb_spec (parse_size (size_value fs) (size_end fs)) 0) as [E|E];
    [tauto|].
  destruct (Z.eqb_spec (to_u32 (seed_value fs)) 0) as [E1|E1]; cbn [orb];
    [tauto|].
  destruct (Ascii.eqb_spec (seed_end fs) zero) as [E2|E2]; cbn [negb].
  - split; [discriminate|]. intros [H|[H|H]]; contradiction.
  - tauto.
Qed.

Lemma main_pass_complete files fs :
  main_pass files (complete fs)
  = match register files fs with
    | Some files' => inl files'
    | None => inr (if parse_size (size_value fs) (size_end fs) =? 0
                   then Invalid_size else Invalid_seed)
    end.
Proof.
  unfold main_pass, register, complete, present.
  cbn [fields name_field size_field seed_field malloc_ok strdup_ok negb].
  cbv zeta.
  destruct (parse_size (size_value fs) (size_end fs) =? 0); [reflexivity|].
  destruct (_ || _); reflexivity.
Qed.

Lemma main_loop_complete specs : forall files files',
  main_loop files (map complete specs) = inl files'
  <-> register_all files specs = Some files'.
Proof.
  induction specs as [|fs specs IH]; intros files files'.
  - cbn [map main_loop register_all].
    split; intros E; injection E as <-; reflexivity.
  - cbn [map main_loop register_all]. rewrite main_pass_complete.
    destruct (register files fs) as [files1|]; [apply IH|split; discriminate].
Qed.

(** [main_files] is [main] on complete passes: it gives the list that
    [main] serves, and gives none when [main] does not get to
    [fuse_main]. *)
Lemma main_files_main specs files :
  main_files specs = Some files <-> main 2 (map complete specs) = Serve files.
Proof.
  unfold main. change (2 <? 2) with false. cbv iota.
  destruct specs as [|fs specs]; [split; discriminate|].
  change (main_files (fs :: specs)) with (register_all [] (fs :: specs)).
  rewrite <- main_loop_complete.
  set (l := fs :: specs). cbn [map]. fold (map complete l).
  change (complete fs :: map complete specs) with (map complete l).
  destruct (main_loop [] (map complete l)) as [files1|r] eqn:Hl.
  - assert (Hne : files1 <> []).
    { apply main_loop_complete, register_all_some in Hl. destruct Hl as [_ ->].
      subst l. cbn [map rev]. rewrite app_nil_r.
      intros E. apply app_eq_nil in E. destruct E; discriminate. }
    destruct files1 as [|t files1]; [contradiction|].
    split; intros E; injection E as <-; reflexivity.
  - split; discriminate.
Qed.

(** X8.  [main] gets to [fuse_main] exactly when [argc] is at least 2,
    [argv[1]] holds at least one specification, every specification has
    its three fields, a size that is not 0 and a seed that is not 0 once
    cut to 32 bits and is followed by nothing, and every [malloc] and
    [strdup] returns memory; the list it serves is then the
    specifications in reverse order.  With [argc] below 2 it exits
    through [usage]; with no specification in [argv[1]] its behaviour is
    undefined ([strtok_r] is handed a save pointer that nothing has
    initialised), and in no other case; the exit "no test files
    specified" is never taken; and when it exits on a specification, that
    is the first specification whose pass does not register it. *)
Theorem main_serves_exactly_the_valid_command_lines argc inputs :
  (argc < 2 -> main argc inputs = Exit Usage)
  /\ (main argc inputs = Undefined <-> 2 <= argc /\ inputs = [])
  /\ (forall files,
         main argc inputs = Serve files <->
         2 <= argc /\ inputs <> []
         /\ exists specs,
              map fields inputs = map present specs
              /\ Forall (fun fs =>
                           parse_size (size_value fs) (size_end fs) <> 0
                           /\ to_u32 (seed_value fs) <> 0
                           /\ seed_end fs = zero) specs
              /\ Forall (fun p => malloc_ok p = true /\ strdup_ok p = true)
                   inputs
              /\ files = rev (map file_of_spec specs))
  /\ main argc inputs <> Exit No_test_files
  /\ (forall reason,
         2 <= argc ->
         (main argc inputs = Exit reason <->
          exists before p after files,
            inputs = before ++ p :: after
            /\ main_loop [] before = inl files
            /\ main_pass files p = inr reason)).
Proof.
  split; [|split; [|split; [|split]]].
  - intros H. unfold main. destruct (Z.ltb_spec argc 2); [reflexivity|lia].
  - unfold main. destruct (Z.ltb_spec argc 2) as [Hlt|Hge].
    + split; [discriminate|]. intros [H _]. lia.
    + destruct inputs as [|p inputs]; [tauto|].
      split; [|intros [_ H]; discriminate].
      destruct (main_loop [] (p :: inputs)) as [[|t l]|r]; discriminate.
  - intros files. destruct (Z.lt_ge_cases argc 2) as [Hlt|Hge].
    + unfold main. destruct (Z.ltb_spec argc 2) as [_|Hge]; [|lia].
      split; [discriminate|]. intros [Hge _]. lia.
    + rewrite main_serve by exact Hge. rewrite main_loop_inl. split.
      * intros (Hne & (specs & Hmap & Hv & Ha & ->) & _).
        rewrite app_nil_r. split; [exact Hge|]. split; [exact Hne|].
        exists specs. auto.
      * intros (_ & Hne & specs & Hmap & Hv & Ha & ->).
        split; [exact Hne|]. split.
        -- exists specs. rewrite app_nil_r. auto.
        -- destruct inputs as [|p inputs]; [contradiction|].
           destruct specs as [|fs specs]; [discriminate|]. cbn [map rev].
           intros E. apply app_eq_nil in E. destruct E; discriminate.
  - rewrite main_exit.
    intros [[_ E]|(_ & Hne & [E|[E _]])]; try discriminate.
    + apply main_loop_inr in E.
      destruct E as (before & p & after & files & _ & _ & Hp).
      unfold main_pass in Hp.
      destruct (name_field (fields p)); [|discriminate].
      destruct (size_field (fields p)) as [[sv se]|]; [|discriminate].
      destruct (seed_field (fields p)) as [[dv de]|]; [|discriminate].
      cbv zeta in Hp. destruct (_ =? 0) in Hp; [discriminate|].
      destruct (_ || _) in Hp; [discriminate|].
      destruct (negb (malloc_ok p)); [discriminate|].
      destruct (negb (strdup_ok p)); discriminate.
    + destruct inputs as [|p inputs]; [contradiction|].
      exact (main_loop_first [] p inputs [] E eq_refl).
  - intros reason Hge. rewrite main_exit, <- main_loop_inr. split.
    + intros [[H _]|(_ & Hne & [E|[E _]])]; [lia|exact E|].
      destruct inputs as [|p inputs]; [contradiction|].
      exfalso. exact (main_loop_first [] p inputs [] E eq_refl).
    + intros E. right. split; [exact Hge|]. split; [|left; exact E].
      intros ->. discriminate.
Qed.

(** X9.  Every file that [main] registers has a size from 1 to
    2^64 - 1 and a seed from 1 to 2^32 - 1. *)
Theorem registered_files_are_valid files :
  registered files ->
  Forall (fun f => 0 < size f < 2 ^ 64 /\ 0 < seed f < 2 ^ 32) files.
Proof.
  intros [specs H].
  assert (Hall : register_all [] specs = Some files).
  { destruct specs; [discriminate|exact H]. }
  exact (register_all_wf specs [] files Hall (Forall_nil _)).
Qed.

Lemma registered_files_are_valid_witness :
  Forall (fun f => 0 < size f < 2 ^ 64 /\ 0 < seed f < 2 ^ 32) testfile_1M.
Proof.
  apply registered_files_are_valid. exact testfile_1M_registered.
Defined.

(** X10.  A negative size is accepted.  The value [v < 0] that
    [strtoll] returns is stored in the 64-bit unsigned size as 2^64 + v,
    which is not 0, so the file is registered; [fop_getattr] then reports
    the negative size [v] in the signed [st_size]. *)
Theorem negative_size_is_accepted nm v st :
  - 2 ^ 63 <= v < 0 -> nm <> ""%string ->
  let files := [{| name := nm; size := 2 ^ 64 + v; seed := 1 |}] in
  main_files [{| spec_name := nm; size_value := v; size_end := zero;
                 seed_value := 1; seed_end := zero |}] = Some files
  /\ fop_getattr files (String "/" nm) st
     = (0, {| st_mode := Z.lor S_IFREG mode_0444; st_nlink := 1;
              st_size := v |}).
Proof.
  intros Hv Hn files. subst files. split.
  - cbn [main_files register_all]. unfold register. cbv zeta.
    cbn [spec_name size_value size_end seed_value seed_end].
    assert (Hp : parse_size v zero = 2 ^ 64 + v).
    { unfold parse_size, to_u64. cbn [Ascii.eqb Bool.eqb orb andb zero].
      replace v with (2 ^ 64 + v + (-1) * 2 ^ 64) at 1 by lia.
      rewrite Z.mod_add by lia. apply Z.mod_small. lia. }
    rewrite Hp. destruct (Z.eqb_spec (2 ^ 64 + v) 0) as [E|_]; [lia|].
    reflexivity.
  - rewrite fop_getattr_file.
    + rewrite skip_slash_cons. unfold lookup. cbn [find name].
      rewrite String.eqb_refl. unfold file_stat. cbn [size]. do 2 f_equal.
      unfold to_off_t.
      replace (2 ^ 64 + v + 2 ^ 63) with (v + 2 ^ 63 + 1 * 2 ^ 64) by lia.
      rewrite Z.mod_add by lia. rewrite Z.mod_small; lia.
    + intros E. injection E as E. contradiction.
Qed.

Lemma negative_size_is_accepted_witness :
  main_files [{| spec_name := "f"; size_value := -1; size_end := zero;
                 seed_value := 1; seed_end := zero |}]
  = Some [{| name := "f"; size := 2 ^ 64 + -1; seed := 1 |}].
Proof.
  refine (proj1 (negative_size_is_accepted "f" (-1) root_stat _ _)).
  - lia.
  - discriminate.
Defined.

(** ** The content engine *)

Lemma crc_seed_inj g f f' b :
  in_u32 f -> in_u32 f' -> f <> f' -> crc g f b <> crc g f' b.
Proof.
  intros Hf Hf' Hne. rewrite !crc_thirds.
  destruct (crc_passes_middle f f' Hf Hf' g 32 (le_n _)) as (Hx & _ & _).
  pose proof (crc_passes_range 32 (g, f) ltac:(lia)) as [Hr _].
  pose proof (crc_passes_range 32 (g, f') ltac:(lia)) as [Hr' _].
  apply crc_passes_last; try assumption.
  intros E. rewrite E, Z.lxor_nilpotent in Hx.
  change (32 - Z.of_nat 32) with 0 in Hx. rewrite Z.shiftr_0_r in Hx.
  symmetry in Hx. apply Z.lxor_eq in Hx. contradiction.
Qed.

(** X11.  With the global seed fixed, [crc] is one-to-one in the file
    seed and one-to-one in the block number: two different 32-bit file
    seeds (the block being the same), or two different 32-bit block
    numbers (the seed being the same), never give the same mixed seed.
    The result is a 32-bit value. *)
Theorem crc_is_one_to_one_in_seed_and_in_block global_seed f f' b b' :
  in_u32 f -> in_u32 f' -> in_u32 b -> in_u32 b' ->
  (f <> f' -> crc global_seed f b <> crc global_seed f' b)
  /\ (b <> b' -> crc global_seed f b <> crc global_seed f b')
  /\ in_u32 (crc global_seed f b).
Proof.
  intros Hf Hf' Hb Hb'. split; [|split].
  - apply crc_seed_inj; assumption.
  - apply crc_block_inj; assumption.
  - apply crc_range.
Qed.

Lemma crc_is_one_to_one_in_seed_and_in_block_witness :
  crc 123456789 1 0 <> crc 123456789 2 0.
Proof.
  refine (proj1 (crc_is_one_to_one_in_seed_and_in_block 123456789 1 2 0 1
                   _ _ _ _) _); unfold in_u32; lia.
Defined.

Lemma block_data_seed_inj b s s' :
  in_u32 s -> in_u32 s' -> s <> s' -> block_data b s <> block_data b s'.
Proof.
  intros Hs Hs' Hne E.
  apply (crc_seed_inj 123456789 s s' b Hs Hs' Hne).
  pose proof (crc_range 123456789 s b) as Hx.
  pose proof (crc_range 123456789 s' b) as Hx'.
  destruct (block_data_first b s) as [r Hr].
  destruct (block_data_first b s') as [r' Hr'].
  rewrite Hr, Hr' in E.
  apply (f_equal (firstn 4)) in E.
  rewrite !firstn_app_exact in E by apply length_le_split.
  apply (f_equal le_combine) in E.
  rewrite !le_combine_split4 in E
    by (apply xorshift_word_range; [assumption|unfold in_u32; lia]).
  eapply xorshift_word_inj; eassumption.
Qed.

(** X12.  Two files with different seeds differ in every block, at
    the same block index, and already in the block's first four bytes. *)
Theorem different_seeds_give_different_blocks i s s' :
  in_u32 s -> in_u32 s' -> s <> s' ->
  generate_block i s <> generate_block i s'
  /\ firstn 4 (generate_block i s) <> firstn 4 (generate_block i s').
Proof.
  intros Hs Hs' Hne.
  rewrite (generate_block_eq i s), (generate_block_eq i s').
  assert (H4 : firstn 4 (block_data (to_u32 i) s)
               <> firstn 4 (block_data (to_u32 i) s')).
  { intros E.
    apply (crc_seed_inj 123456789 s s' (to_u32 i) Hs Hs' Hne).
    pose proof (crc_range 123456789 s (to_u32 i)) as Hx.
    pose proof (crc_range 123456789 s' (to_u32 i)) as Hx'.
    destruct (block_data_first (to_u32 i) s) as [r Hr].
    destruct (block_data_first (to_u32 i) s') as [r' Hr'].
    rewrite Hr, Hr' in E.
    rewrite !firstn_app_exact in E by apply length_le_split.
    apply (f_equal le_combine) in E.
    rewrite !le_combine_split4 in E
      by (apply xorshift_word_range; [assumption|unfold in_u32; lia]).
    eapply xorshift_word_inj; eassumption. }
  split; [|exact H4]. intros E. apply H4. rewrite E. reflexivity.
Qed.

Lemma different_seeds_give_different_blocks_witness :
  generate_block 0 1 <> generate_block 0 2.
Proof.
  refine (proj1 (different_seeds_give_different_blocks 0 1 2 _ _ _));
    unfold in_u32; lia.
Defined.

(** X13.  Within one file, two blocks hold the same bytes exactly
    when their indices are equal modulo 2^32: the 2^32 blocks that a
    32-bit index can name are pairwise different. *)
Theorem blocks_are_equal_exactly_when_indices_agree_mod_2_32 i j s :
  generate_block i s = generate_block j s <-> i mod 2 ^ 32 = j mod 2 ^ 32.
Proof.
  rewrite (generate_block_eq i s), (generate_block_eq j s).
  fold (to_u32 i) (to_u32 j). split.
  - intros E. destruct (Z.eq_dec (to_u32 i) (to_u32 j)) as [H|H]; [exact H|].
    exfalso. revert E. apply block_data_inj; try apply to_u32_range. exact H.
  - intros ->. reflexivity.
Qed.

(** X14.  One step of the xorshift generator of [get_block] is
    one-to-one on its four-word state (the first word being a 32-bit
    value): two different states never step to the same state, so the
    generator never merges two streams. *)
Theorem xorshift_step_is_one_to_one a b c d a' b' c' d' :
  in_u32 a -> in_u32 a' ->
  (a, b, c, d) <> (a', b', c', d') ->
  xorshift_step (a, b, c, d) <> xorshift_step (a', b', c', d').
Proof.
  intros Ha Ha' Hne E. apply Hne. rewrite !xorshift_step_eq in E.
  injection E as Eb Ec Ed Ew. subst b' c' d'.
  apply xorshift_word_inj in Ew; try assumption. subst a'. reflexivity.
Qed.

Lemma xorshift_step_is_one_to_one_witness :
  xorshift_step (1, 2, 3, 4) <> xorshift_step (5, 2, 3, 4).
Proof.
  refine (xorshift_step_is_one_to_one 1 2 3 4 5 2 3 4 _ _ _);
    [unfold in_u32; lia | unfold in_u32; lia | discriminate].
Defined.

(** X15.  [get_block] stores exactly one block: it faults exactly
    when fewer than BLOCK_SIZE bytes are left at [buf]; otherwise the
    memory keeps its length and every byte from BLOCK_SIZE on is left as
    it was. *)
Theorem get_block_needs_one_block_of_room block buf file_seed :
  (get_block block buf file_seed = Fault
   <-> Z.of_nat (length buf) < BLOCK_SIZE)
  /\ (forall buf', get_block block buf file_seed = Ok buf' ->
        length buf' = length buf
        /\ skipn (Z.to_nat BLOCK_SIZE) buf' = skipn (Z.to_nat BLOCK_SIZE) buf).
Proof.
  destruct (Z.ltb_spec (Z.of_nat (length buf)) BLOCK_SIZE) as [H|H].
  - rewrite get_block_short by assumption. split; [tauto|discriminate].
  - rewrite get_block_spec by assumption. split.
    + split; [discriminate|lia].
    + intros buf' E. apply Ok_inj in E. subst buf'.
      pose proof (block_data_length (to_u32 block) file_seed) as Hl.
      split.
      * rewrite length_app, length_skipn. lia.
      * apply skipn_app_exact. lia.
Qed.

(** ** The read fulfiller *)

Lemma byte_at_period s p : byte_at s (p + 2 ^ 48) = byte_at s p.
Proof.
  unfold byte_at.
  replace ((p + 2 ^ 48) mod BLOCK_SIZE) with (p mod BLOCK_SIZE).
  2:{ change (2 ^ 48) with (2 ^ 32 * BLOCK_SIZE).
      rewrite Z.mod_add; [reflexivity|discriminate]. }
  replace (to_u32 ((p + 2 ^ 48) / BLOCK_SIZE)) with (to_u32 (p / BLOCK_SIZE));
    [reflexivity|].
  change (2 ^ 48) with (2 ^ 32 * BLOCK_SIZE).
  rewrite Z.div_add by discriminate. unfold to_u32.
  replace (p / BLOCK_SIZE + 2 ^ 32) with (p / BLOCK_SIZE + 1 * 2 ^ 32) by lia.
  rewrite Z.mod_add; [reflexivity|discriminate].
Qed.

Lemma bytes_from_period s n : forall p,
  bytes_from s n (p + 2 ^ 48) = bytes_from s n p.
Proof.
  induction n as [|n IH]; intros p; [reflexivity|].
  cbn [bytes_from]. rewrite byte_at_period. f_equal.
  replace (p + 2 ^ 48 + 1) with (p + 1 + 2 ^ 48) by lia. apply IH.
Qed.

(** X16.  The content of a file has period 2^48 bytes: since the
    block index is cut to 32 bits, a read at [abs_offset + 2^48] returns
    and stores exactly what the same read at [abs_offset] does. *)
Theorem file_content_repeats_after_2_48_bytes files path f buf len abs_offset bb :
  registered files ->
  lookup files (skip_slash path) = Some f ->
  0 <= abs_offset -> 0 <= len -> abs_offset + 2 ^ 48 + len <= size f ->
  len <= Z.of_nat (length buf) ->
  Z.of_nat (length bb) = BLOCK_SIZE ->
  fop_read files path buf len (abs_offset + 2 ^ 48) bb
  = fop_read files path buf len abs_offset bb.
Proof.
  intros Hreg Hl Ho Hlen Hin Hbuf Hbb.
  destruct (registered_wf files _ f Hreg Hl) as [Hsz _].
  assert (Hc : forall o, 0 <= o -> o + len <= size f ->
                 clamped_length (size f) o len = len).
  { intros o Ho1 Ho2. unfold clamped_length.
    destruct (Z.gtb_spec (o + len) (size f)); lia. }
  rewrite !(fop_read_spec files path f);
    try first [assumption | lia | rewrite Hc; lia].
  cbv zeta. rewrite !Hc by lia. rewrite bytes_from_period. reflexivity.
Qed.

Lemma file_1P_registered : registered file_1P.
Proof.
  exists [{| spec_name := "big"; size_value := 1048576; size_end := "G";
             seed_value := 1; seed_end := zero |}].
  reflexivity.
Qed.

Lemma file_content_repeats_after_2_48_bytes_witness :
  fop_read file_1P "/big" (repeat Byte.x00 12) 12 (65530 + 2 ^ 48)
    (repeat Byte.x00 (Z.to_nat BLOCK_SIZE))
  = fop_read file_1P "/big" (repeat Byte.x00 12) 12 65530
      (repeat Byte.x00 (Z.to_nat BLOCK_SIZE)).
Proof.
  refine (file_content_repeats_after_2_48_bytes file_1P "/big"
            {| name := "big"; size := 2 ^ 50; seed := 1 |}
            (repeat Byte.x00 12) 12 65530
            (repeat Byte.x00 (Z.to_nat BLOCK_SIZE)) _ _ _ _ _ _ _).
  - exact file_1P_registered.
  - reflexivity.
  - lia.
  - lia.
  - cbn [size]. lia.
  - rewrite repeat_length. lia.
  - rewrite repeat_length. change BLOCK_SIZE with 65536. lia.
Defined.

(** X17.  Reads compose: reading [n] bytes at [abs_offset] and then
    [m] bytes at [abs_offset + n] delivers, one after the other, the same
    [n + m] bytes as a single read of [n + m] bytes at [abs_offset].
    Whatever way a reader cuts a range into requests, it sees the same
    file. *)
Theorem consecutive_reads_compose files path f buf1 buf2 buf n m abs_offset bb :
  registered files ->
  lookup files (skip_slash path) = Some f ->
  0 <= abs_offset -> 0 <= n -> 0 <= m -> abs_offset + n + m <= size f ->
  n <= Z.of_nat (length buf1) -> m <= Z.of_nat (length buf2) ->
  n + m <= Z.of_nat (length buf) ->
  Z.of_nat (length bb) = BLOCK_SIZE ->
  exists d1 d2,
    Z.of_nat (length d1) = n /\ Z.of_nat (length d2) = m
    /\ fop_read files path buf1 n abs_offset bb
       = Ok (to_int n, d1 ++ skipn (Z.to_nat n) buf1)
    /\ fop_read files path buf2 m (abs_offset + n) bb
       = Ok (to_int m, d2 ++ skipn (Z.to_nat m) buf2)
    /\ fop_read files path buf (n + m) abs_offset bb
       = Ok (to_int (n + m), d1 ++ d2 ++ skipn (Z.to_nat (n + m)) buf).
Proof.
  intros Hreg Hl Ho Hn Hm Hin Hb1 Hb2 Hb Hbb.
  destruct (registered_wf files _ f Hreg Hl) as [Hsz _].
  assert (Hc : forall o k, 0 <= o -> 0 <= k -> o + k <= size f ->
                 clamped_length (size f) o k = k).
  { intros o k Ho1 Hk Ho2. unfold clamped_length.
    destruct (Z.gtb_spec (o + k) (size f)); lia. }
  exists (bytes_from (seed f) (Z.to_nat n) abs_offset),
         (bytes_from (seed f) (Z.to_nat m) (abs_offset + n)).
  rewrite !bytes_from_length.
  rewrite !(fop_read_spec files path f);
    try first [assumption | lia | rewrite Hc; lia].
  cbv zeta. rewrite !Hc by lia.
  repeat split; try lia.
  rewrite Z2Nat.inj_add, bytes_from_app, <- app_assoc, Z2Nat.id by lia.
  reflexivity.
Qed.

Lemma consecutive_reads_compose_witness :
  exists d1 d2,
    Z.of_nat (length d1) = 6 /\ Z.of_nat (length d2) = 6
    /\ fop_read testfile_1M "/testfile_1M" (repeat Byte.x00 6) 6 65530
         (repeat Byte.x00 (Z.to_nat BLOCK_SIZE))
       = Ok (to_int 6, d1 ++ skipn (Z.to_nat 6) (repeat Byte.x00 6))
    /\ fop_read testfile_1M "/testfile_1M" (repeat Byte.x00 6) 6 (65530 + 6)
         (repeat Byte.x00 (Z.to_nat BLOCK_SIZE))
       = Ok (to_int 6, d2 ++ skipn (Z.to_nat 6) (repeat Byte.x00 6))
    /\ fop_read testfile_1M "/testfile_1M" (repeat Byte.x00 12) (6 + 6) 65530
         (repeat Byte.x00 (Z.to_nat BLOCK_SIZE))
       = Ok (to_int (6 + 6),
             d1 ++ d2 ++ skipn (Z.to_nat (6 + 6)) (repeat Byte.x00 12)).
Proof.
  refine (consecutive_reads_compose testfile_1M "/testfile_1M"
            {| name := "testfile_1M"; size := 1048576; seed := 1 |}
            (repeat Byte.x00 6) (repeat Byte.x00 6) (repeat Byte.x00 12)
            6 6 65530 (repeat Byte.x00 (Z.to_nat BLOCK_SIZE))
            _ _ _ _ _ _ _ _ _ _).
  - exact testfile_1M_registered.
  - reflexivity.
  - lia.
  - lia.
  - lia.
  - cbn [size]. lia.
  - rewrite repeat_length. lia.
  - rewrite repeat_length. lia.
  - rewrite repeat_length. lia.
  - rewrite repeat_length. change BLOCK_SIZE with 65536. lia.
Defined.

(** X18.  A read that has nothing to deliver stores nothing: when
    the offset plus the length does not wrap around 2^64, a read of zero
    bytes at an offset within the file, and a read of any such length
    that starts exactly at the end of the file, return 0 and leave the
    buffer as it was.  No block is generated, and the buffer may be of
    any size, even empty. *)
Theorem empty_reads_store_nothing files path f buf len abs_offset bb :
  lookup files (skip_slash path) = Some f ->
  0 <= len -> 0 <= abs_offset <= size f -> abs_offset + len < 2 ^ 64 ->
  len = 0 \/ abs_offset = size f ->
  fop_read files path buf len abs_offset bb = Ok (0, buf).
Proof.
  intros Hl Hlen Ho Hw Hcase.
  rewrite (fop_read_found _ _ f) by assumption. cbv zeta.
  rewrite (to_u64_small abs_offset), (to_u64_small (abs_offset + len)) by lia.
  destruct (Z.gtb_spec (abs_offset + len) (size f)) as [Hgt|Hle].
  - assert (abs_offset = size f) as -> by lia.
    rewrite Z.sub_diag. change (to_u64 0) with 0.
    change (Z.to_nat 0) with 0%nat. reflexivity.
  - assert (len = 0) as -> by lia. reflexivity.
Qed.

Lemma empty_reads_store_nothing_witness :
  fop_read file_100 "/f" [] (2 ^ 63) 100 [] = Ok (0, []).
Proof.
  refine (empty_reads_store_nothing file_100 "/f"
            {| name := "f"; size := 100; seed := 1 |} [] (2 ^ 63) 100 []
            _ _ _ _ _).
  - reflexivity.
  - lia.
  - cbn [size]. lia.
  - lia.
  - right. reflexivity.
Defined.

(** X19.  A read of BLOCK_SIZE bytes at a multiple [k * BLOCK_SIZE]
    of the block size, inside the file, returns BLOCK_SIZE and stores
    block [k] of the file, as [get_block] makes it, at the start of the
    buffer; the rest of the buffer is left as it was. *)
Theorem aligned_block_read_is_the_block files path f buf k bb :
  registered files ->
  lookup files (skip_slash path) = Some f ->
  0 <= k -> (k + 1) * BLOCK_SIZE <= size f ->
  BLOCK_SIZE <= Z.of_nat (length buf) ->
  Z.of_nat (length bb) = BLOCK_SIZE ->
  fop_read files path buf BLOCK_SIZE (k * BLOCK_SIZE) bb
  = Ok (BLOCK_SIZE,
        generate_block k (seed f) ++ skipn (Z.to_nat BLOCK_SIZE) buf).
Proof.
  intros Hreg Hl Hk Hin Hbuf Hbb.
  destruct (registered_wf files _ f Hreg Hl) as [Hsz _].
  assert (Hc : clamped_length (size f) (k * BLOCK_SIZE) BLOCK_SIZE = BLOCK_SIZE).
  { unfold clamped_length.
    destruct (Z.gtb_spec (k * BLOCK_SIZE + BLOCK_SIZE) (size f)); lia. }
  assert (Hpos : 0 < BLOCK_SIZE) by reflexivity.
  rewrite (fop_read_spec files path f);
    try first [assumption | nia | rewrite Hc; lia].
  cbv zeta. rewrite Hc, generate_block_eq, block_data_bytes.
  change (to_int BLOCK_SIZE) with BLOCK_SIZE. reflexivity.
Qed.

Lemma aligned_block_read_is_the_block_witness :
  fop_read testfile_1M "/testfile_1M" (repeat Byte.x00 (Z.to_nat BLOCK_SIZE))
    BLOCK_SIZE (3 * BLOCK_SIZE) (repeat Byte.x00 (Z.to_nat BLOCK_SIZE))
  = Ok (BLOCK_SIZE,
        generate_block 3 1
        ++ skipn (Z.to_nat BLOCK_SIZE) (repeat Byte.x00 (Z.to_nat BLOCK_SIZE))).
Proof.
  refine (aligned_block_read_is_the_block testfile_1M "/testfile_1M"
            {| name := "testfile_1M"; size := 1048576; seed := 1 |}
            (repeat Byte.x00 (Z.to_nat BLOCK_SIZE)) 3
            (repeat Byte.x00 (Z.to_nat BLOCK_SIZE)) _ _ _ _ _ _).
  - exact testfile_1M_registered.
  - reflexivity.
  - lia.
  - cbn [size]. change BLOCK_SIZE with 65536. lia.
  - rewrite repeat_length. change BLOCK_SIZE with 65536. lia.
  - rewrite repeat_length. change BLOCK_SIZE with 65536. lia.
Defined.

(** ** The passes of the read loop *)

Lemma to_off_t_mod_block p : to_off_t p mod BLOCK_SIZE = p mod BLOCK_SIZE.
Proof.
  destruct (to_off_t_wrap p) as [k ->].
  replace (p + k * 2 ^ 64) with (p + (k * 2 ^ 48) * BLOCK_SIZE)
    by (change BLOCK_SIZE with 65536; lia).
  apply Z.mod_add. discriminate.
Qed.

Lemma blocks_touched_step size abs_offset :
  0 < size ->
  let n := pass_length size abs_offset in
  blocks_touched size abs_offset
  = 1 + blocks_touched (size - n) (to_off_t (abs_offset + n)).
Proof.
  intros Hs n. subst n. unfold blocks_touched.
  rewrite to_off_t_mod_block.
  destruct (Z.eqb_spec size 0) as [|_]; [lia|].
  unfold pass_length. cbv zeta.
  pose proof (Z.mod_pos_bound abs_offset BLOCK_SIZE ltac:(reflexivity)) as Ho.
  pose proof (Z.div_mod abs_offset BLOCK_SIZE ltac:(discriminate)) as Hd.
  set (o := abs_offset mod BLOCK_SIZE) in *.
  set (q := abs_offset / BLOCK_SIZE) in *.
  assert (Hfull : forall m, 0 < m -> o + m = BLOCK_SIZE ->
            (if size - m =? 0 then 0
             else ((abs_offset + m) mod BLOCK_SIZE + (size - m) + BLOCK_SIZE - 1)
                  / BLOCK_SIZE)
            = (o + size + BLOCK_SIZE - 1) / BLOCK_SIZE - 1).
  { intros m Hm Hom.
    replace (abs_offset + m) with (0 + (q + 1) * BLOCK_SIZE) by lia.
    rewrite Z.mod_add by discriminate. rewrite Z.mod_0_l by discriminate.
    replace (o + size + BLOCK_SIZE - 1)
      with (0 + (size - m) + BLOCK_SIZE - 1 + 1 * BLOCK_SIZE) by lia.
    rewrite Z.div_add by discriminate.
    destruct (Z.eqb_spec (size - m) 0) as [E|E].
    - rewrite E. change BLOCK_SIZE with 65536. reflexivity.
    - lia. }
  destruct (Z.eqb_spec o 0) as [E|E];
    destruct (Z.leb_spec BLOCK_SIZE size) as [L|L]; cbn [andb].
  - rewrite Hfull; lia.
  - rewrite Z.min_l by lia. rewrite Z.sub_diag. cbn [Z.eqb].
    rewrite E. change BLOCK_SIZE with 65536 in *.
    Z.div_mod_to_equations. lia.
  - rewrite Z.min_r by lia. rewrite Hfull; lia.
  - destruct (Z.le_gt_cases size (BLOCK_SIZE - o)) as [M|M].
    + rewrite Z.min_l by lia. rewrite Z.sub_diag. cbn [Z.eqb].
      change BLOCK_SIZE with 65536 in *. Z.div_mod_to_equations. lia.
    + rewrite Z.min_r by lia. rewrite Hfull; lia.
Qed.

Lemma blocks_touched_nonneg size abs_offset :
  0 <= size -> 0 <= blocks_touched size abs_offset.
Proof.
  intros Hs. unfold blocks_touched. destruct (size =? 0); [lia|].
  pose proof (Z.mod_pos_bound abs_offset BLOCK_SIZE ltac:(reflexivity)).
  apply Z.div_pos; change BLOCK_SIZE with 65536 in *; lia.
Qed.

Lemma read_loop_passes fuel : forall s buf size abs_offset bb,
  0 <= size < 2 ^ 64 ->
  size <= Z.of_nat (length buf) ->
  BLOCK_SIZE <= Z.of_nat (length bb) ->
  (fuel < Z.to_nat (blocks_touched size abs_offset))%nat ->
  read_loop fuel s buf size abs_offset bb = Timeout.
Proof.
  induction fuel as [|fuel IH]; intros s buf size abs_offset bb Hs Hbuf Hbb Hf.
  - destruct (Z.eqb_spec size 0) as [E|E].
    + unfold blocks_touched in Hf. rewrite E in Hf. cbn in Hf. lia.
    + cbn [read_loop]. destruct (Z.eqb_spec size 0); [lia|reflexivity].
  - rewrite read_loop_unfold.
    destruct (Z.eqb_spec size 0) as [E|E].
    { unfold blocks_touched in Hf. rewrite E in Hf. cbn in Hf. lia. }
    pose proof (pass_length_bounds size abs_offset ltac:(lia)) as [Hn _].
    destruct (read_pass_spec s buf size abs_offset bb) as (bb' & Hbb' & ->);
      try lia.
    cbn [bind]. set (n := pass_length size abs_offset) in *.
    rewrite to_u64_small by lia.
    pose proof (blocks_touched_step size abs_offset ltac:(lia)) as Hstep.
    cbv zeta in Hstep. fold n in Hstep.
    pose proof (blocks_touched_nonneg (size - n) (to_off_t (abs_offset + n))
                  ltac:(lia)) as Hnn.
    rewrite IH; [reflexivity|lia| |assumption|lia].
    rewrite length_skipn, length_app, bytes_from_length, length_skipn. lia.
Qed.

Lemma read_loop_enough fuel : forall s buf size abs_offset bb,
  0 <= size < 2 ^ 64 ->
  (Z.to_nat (blocks_touched size abs_offset) <= fuel)%nat ->
  read_loop fuel s buf size abs_offset bb <> Timeout.
Proof.
  induction fuel as [|fuel IH]; intros s buf size abs_offset bb Hs Hf.
  - destruct (Z.eqb_spec size 0) as [E|E].
    + rewrite E. discriminate.
    + pose proof (blocks_touched_step size abs_offset ltac:(lia)) as Hstep.
      cbv zeta in Hstep.
      pose proof (pass_length_bounds size abs_offset ltac:(lia)) as [Hn _].
      pose proof (blocks_touched_nonneg (size - pass_length size abs_offset)
                    (to_off_t (abs_offset + pass_length size abs_offset))
                    ltac:(lia)). lia.
  - rewrite read_loop_unfold.
    destruct (Z.eqb_spec size 0) as [->|Hnz]; [discriminate|].
    pose proof (read_pass_no_timeout s buf size abs_offset bb) as Hp.
    destruct (read_pass s buf size abs_offset bb) as [[[n buf'] bb']| |] eqn:E;
      cbn [bind]; try congruence.
    apply read_pass_count in E; [|lia].
    pose proof (pass_length_bounds size abs_offset ltac:(lia)) as [Hn _].
    pose proof (blocks_touched_step size abs_offset ltac:(lia)) as Hstep.
    cbv zeta in Hstep.
    rewrite <- E in Hn, Hstep.
    pose proof (blocks_touched_nonneg (size - n) (to_off_t (abs_offset + n))
                  ltac:(lia)) as Hnn.
    rewrite to_u64_small by lia.
    specialize (IH s (skipn (Z.to_nat n) buf') (size - n)
                  (to_off_t (abs_offset + n)) bb' ltac:(lia) ltac:(lia)).
    destruct (read_loop fuel s _ (size - n) _ bb'); cbn [bind];
      congruence.
Qed.

(** X20.  The loop of [fop_read] makes exactly one pass for every
    block that the requested range touches: a budget of passes is
    exhausted exactly when it is smaller than that number, which is at
    most [size / BLOCK_SIZE + 2].  (The budget of [size] passes that
    [fop_read] is given in this development is far more than needed.) *)
Theorem read_makes_one_pass_per_block_touched fuel s buf size abs_offset bb :
  0 <= size < 2 ^ 64 ->
  size <= Z.of_nat (length buf) ->
  BLOCK_SIZE <= Z.of_nat (length bb) ->
  (read_loop fuel s buf size abs_offset bb = Timeout
   <-> (fuel < Z.to_nat (blocks_touched size abs_offset))%nat)
  /\ blocks_touched size abs_offset <= size / BLOCK_SIZE + 2.
Proof.
  intros Hs Hbuf Hbb. split; [split|].
  - intros Ht.
    destruct (Nat.lt_ge_cases fuel (Z.to_nat (blocks_touched size abs_offset)))
      as [H|H]; [exact H|].
    exfalso. exact (read_loop_enough fuel s buf size abs_offset bb Hs H Ht).
  - apply read_loop_passes; assumption.
  - unfold blocks_touched.
    pose proof (Z.mod_pos_bound abs_offset BLOCK_SIZE ltac:(reflexivity)) as Ho.
    destruct (Z.eqb_spec size 0) as [E|E].
    + rewrite E. change BLOCK_SIZE with 65536. cbn. lia.
    + change BLOCK_SIZE with 65536 in *. Z.div_mod_to_equations. lia.
Qed.

Lemma read_makes_one_pass_per_block_touched_witness :
  (read_loop 1 1 (repeat Byte.x00 12) 12 65530
     (repeat Byte.x00 (Z.to_nat BLOCK_SIZE)) = Timeout
   <-> (1 < Z.to_nat (blocks_touched 12 65530))%nat)
  /\ blocks_touched 12 65530 <= 12 / BLOCK_SIZE + 2.
Proof.
  refine (read_makes_one_pass_per_block_touched 1 1 (repeat Byte.x00 12) 12
            65530 (repeat Byte.x00 (Z.to_nat BLOCK_SIZE)) _ _ _).
  - lia.
  - rewrite repeat_length. lia.
  - rewrite repeat_length. change BLOCK_SIZE with 65536. lia.
Defined.
